(** * seastar-rs: the Rust task / waker adapter and the future wrapper

    A shallow embedding of [rust_task] with the exported [seastar_rs_*]
    functions (the translation unit that includes task.hh) and of
    [future_wrapper_base] (seastar/rust/future.hh).

    The Seastar reactor is an external collaborator.  Its three entry
    points used by the task are recorded in the state rather than
    interpreted:
    - [seastar::schedule(this)] appends to [run_queue];
    - [seastar::smp::submit_to(shard, f)] and
      [seastar::alien::run_on(alien, shard, f)] append to [mailbox].
    What the reactor later does with a queued item is described by
    [run_callable] (a mailbox item executed on its target shard) and by
    [run_and_dispose] (a run-queue item executed by the scheduler).

    Seastar's [smp::submit_to] queues a submission to another shard and
    invokes a submission to the caller's own shard at once.  [smp_submit]
    is the queueing path alone; [shortcut.submit_to] adds the same-shard
    invocation, and [shortcut.call_on_origin_thread] and [shortcut.wake]
    are the dispatcher and the consuming wake over it. *)

From stdpp Require Import base option list gmap.
From Stdlib Require Import ZArith Lia.

Local Open Scope Z_scope.

(** ** Data model *)

(** Raw addresses ([void*], [rust_task*], [seastar::reactor*]); 0 is
    [nullptr]. *)
Definition ptr : Type := Z.

(** [unsigned] shard index. *)
Definition shard_id : Type := N.

(** [rust_future_poll_fn]: the address of a foreign function. *)
Definition rust_future_poll_fn : Type := Z.

(** The two thread-local values the task consults: [&seastar::engine()]
    (0 on a thread that has no reactor) and [seastar::this_shard_id()]. *)
Record thread : Type := Thread {
  engine : ptr;
  this_shard_id : shard_id
}.

Global Instance thread_eq_dec : EqDecision thread.
Proof. solve_decision. Defined.

Inductive scheduling_state : Type :=
  | idle
  | scheduled
  | executing
  | executing_with_pending_schedule
  | done.

Global Instance scheduling_state_eq_dec : EqDecision scheduling_state.
Proof. solve_decision. Defined.

Record rust_task : Type := RustTask {
  _ref_count : Z;                    (* std::atomic<uint64_t>, starts as 1 *)
  _origin_engine : ptr;
  _origin_shard : shard_id;
  _sched_state : scheduling_state;
  _poll_fn : rust_future_poll_fn;
  _rust_future : ptr
}.

Global Instance rust_task_eq_dec : EqDecision rust_task.
Proof. solve_decision. Defined.

(** The closures handed to the reactor. *)
Inductive callable : Type :=
  | delete_this (this : ptr)
      (* dec_ref:  [this] { delete this; } *)
  | wake_and_release (this : ptr)
      (* wake:     [this] { do_wake(); dec_ref_local(); } *)
  | spawn_and_run (poll_fn : rust_future_poll_fn) (rust_future : ptr).
      (* seastar_rs_submit_to:
         [poll_fn, rust_future] { (new rust_task(..))->run_and_dispose(); } *)

Global Instance callable_eq_dec : EqDecision callable.
Proof. solve_decision. Defined.

Inductive channel : Type :=
  | smp_submit_to      (* seastar::smp::submit_to *)
  | alien_run_on.      (* seastar::alien::run_on *)

Global Instance channel_eq_dec : EqDecision channel.
Proof. solve_decision. Defined.

(** One submission to the reactor: the channel used, the thread the work
    is addressed to, and the work. *)
Record message : Type := Message {
  via : channel;
  target : thread;
  work : callable
}.

Global Instance message_eq_dec : EqDecision message.
Proof. solve_decision. Defined.

(** A destroyed task: where [delete this] ran, on which object, and the
    object's last contents. *)
Record burial : Type := Burial {
  buried_on : thread;
  buried_at : ptr;
  buried : rust_task
}.

Record world : Type := World {
  heap : gmap ptr rust_task;         (* live rust_task objects *)
  brk : ptr;                         (* next address [new] hands out *)
  run_queue : list (thread * ptr);   (* seastar::schedule, oldest first *)
  mailbox : list message;            (* submit_to / run_on, oldest first *)
  graveyard : list burial;           (* every [delete this], oldest first *)
  polls : list (thread * ptr * ptr)  (* every call of a poll function *)
}.

Definition with_heap (h : gmap ptr rust_task) (w : world) : world :=
  {| heap := h; brk := brk w; run_queue := run_queue w;
     mailbox := mailbox w; graveyard := graveyard w; polls := polls w |}.

(** ** Faults and the state monad

    Touching a [rust_task] that is not live is undefined behaviour in the
    source; the model stops there with [use_after_free].  [assert] is
    modelled as in a build without NDEBUG: a failing condition stops with
    [assertion_failed].  The world reached at the fault is kept. *)

Inductive fault : Type :=
  | use_after_free
  | assertion_failed.

Inductive result (A : Type) : Type :=
  | Done (a : A)
  | Fault (f : fault).
Arguments Done {A} a.
Arguments Fault {A} f.

Definition M (A : Type) : Type := world → result A * world.

Global Instance M_ret : MRet M := λ A a w, (Done a, w).
Global Instance M_bind : MBind M := λ A B k m w,
  match m w with
  | (Done a, w') => k a w'
  | (Fault f, w') => (Fault f, w')
  end.

Definition assert (b : bool) : M unit :=
  λ w, if b then (Done (), w) else (Fault assertion_failed, w).

(** Read the object behind [this]. *)
Definition deref (this : ptr) : M rust_task :=
  λ w, match heap w !! this with
       | Some t => (Done t, w)
       | None => (Fault use_after_free, w)
       end.

(** Write the object behind [this]. *)
Definition update (this : ptr) (f : rust_task → rust_task) : M unit :=
  λ w, match heap w !! this with
       | Some t => (Done (), with_heap (<[this := f t]> (heap w)) w)
       | None => (Fault use_after_free, w)
       end.

Definition set_sched_state (s : scheduling_state) (t : rust_task) : rust_task :=
  {| _ref_count := _ref_count t; _origin_engine := _origin_engine t;
     _origin_shard := _origin_shard t; _sched_state := s;
     _poll_fn := _poll_fn t; _rust_future := _rust_future t |}.

Definition set_ref_count (c : Z) (t : rust_task) : rust_task :=
  {| _ref_count := c; _origin_engine := _origin_engine t;
     _origin_shard := _origin_shard t; _sched_state := _sched_state t;
     _poll_fn := _poll_fn t; _rust_future := _rust_future t |}.

(** [uint64_t] arithmetic wraps. *)
Definition uint64_wrap (z : Z) : Z := z mod 2 ^ 64.

(** A task after one reference has been released. *)
Definition released (t : rust_task) : rust_task :=
  set_ref_count (uint64_wrap (_ref_count t - 1)) t.

(** [_ref_count.fetch_add(n)] and [_ref_count.fetch_sub(n)]: both return
    the value held before. *)
Definition fetch_add (this : ptr) (n : Z) : M Z :=
  t ← deref this;
  update this (set_ref_count (uint64_wrap (_ref_count t + n)));;
  mret (_ref_count t).

Definition fetch_sub (this : ptr) (n : Z) : M Z :=
  t ← deref this;
  update this (set_ref_count (uint64_wrap (_ref_count t - n)));;
  mret (_ref_count t).

(** The world after [delete this] on thread [th], the object being [t]. *)
Definition entombed (th : thread) (this : ptr) (t : rust_task) (w : world)
  : world :=
  {| heap := base.delete this (heap w); brk := brk w;
     run_queue := run_queue w; mailbox := mailbox w;
     graveyard := graveyard w ++ [Burial th this t]; polls := polls w |}.

(** [delete this], executed on thread [th]. *)
Definition delete_task (th : thread) (this : ptr) : M unit :=
  λ w, match heap w !! this with
       | Some t => (Done (), entombed th this t w)
       | None => (Fault use_after_free, w)
       end.

(** The world after [seastar::schedule(this)] on thread [th]. *)
Definition enqueued (th : thread) (this : ptr) (w : world) : world :=
  {| heap := heap w; brk := brk w; run_queue := run_queue w ++ [(th, this)];
     mailbox := mailbox w; graveyard := graveyard w; polls := polls w |}.

(** [seastar::schedule(this)], called on thread [th]. *)
Definition schedule (th : thread) (this : ptr) : M unit :=
  λ w, (Done (), enqueued th this w).

(** A submission to the reactor. *)
Definition post (m : message) : M unit :=
  λ w, (Done (),
        {| heap := heap w; brk := brk w; run_queue := run_queue w;
           mailbox := mailbox w ++ [m]; graveyard := graveyard w;
           polls := polls w |}).

(** Modelled from the spec: [seastar::smp::submit_to(shard, f)] is
    Seastar's, not part of these sources; the specification takes it as a
    black box, "submit a callable to worker N".  Called from thread [th],
    the work goes to shard [shard] of the caller's own engine.  This is
    the queueing path only, taken here for every shard: what it says of a
    submission to the caller's own shard is that the closure is run when
    the mailbox item is delivered.  Seastar invokes such a closure before
    [submit_to] returns; [shortcut.submit_to] below has that case. *)
Definition smp_submit (th : thread) (shard : shard_id) (f : callable) : M unit :=
  post (Message smp_submit_to (Thread (engine th) shard) f).

(** Modelled from the spec: [seastar::alien::run_on(e->alien(), shard, f)],
    Seastar's entry for threads outside the engine ("the engine's
    foreign-thread ingress path"); the work is queued for shard [shard] of
    engine [e]. *)
Definition alien_run (e : ptr) (shard : shard_id) (f : callable) : M unit :=
  post (Message alien_run_on (Thread e shard) f).

(** ** rust_task *)

Definition do_wake (th : thread) (this : ptr) : M unit :=
  t ← deref this;
  assert (bool_decide (_origin_shard t = this_shard_id th));;
  match _sched_state t with
  | idle =>
      schedule th this;;
      update this (set_sched_state scheduled)
  | scheduled => mret ()
  | executing => update this (set_sched_state executing_with_pending_schedule)
  | executing_with_pending_schedule => mret ()
  | done => mret ()
  end.

Definition is_on_right_thread (th : thread) (t : rust_task) : bool :=
  bool_decide (engine th = _origin_engine t)
  && bool_decide (this_shard_id th = _origin_shard t).

Definition call_on_origin_thread (th : thread) (this : ptr) (f : callable)
  : M unit :=
  t ← deref this;
  if bool_decide (engine th ≠ _origin_engine t) then
    alien_run (_origin_engine t) (_origin_shard t) f
  else
    smp_submit th (_origin_shard t) f.

Definition dec_ref_local (th : thread) (this : ptr) : M unit :=
  old ← fetch_sub this 1;
  if bool_decide (old = 1) then delete_task th this else mret ().

Definition inc_ref (this : ptr) : M unit :=
  fetch_add this 1;; mret ().

Definition dec_ref (th : thread) (this : ptr) : M unit :=
  old ← fetch_sub this 1;
  if bool_decide (old = 1) then
    call_on_origin_thread th this (delete_this this)
  else mret ().

(** The body of the closure [wake] submits:
    [this] { do_wake(); dec_ref_local(); } *)
Definition wake_lambda (th : thread) (this : ptr) : M unit :=
  do_wake th this;;
  dec_ref_local th this.

Definition wake (th : thread) (this : ptr) : M unit :=
  call_on_origin_thread th this (wake_and_release this).

Definition wake_by_ref (th : thread) (this : ptr) : M unit :=
  t ← deref this;
  if is_on_right_thread th t then
    do_wake th this
  else
    inc_ref this;;
    wake th this.

(** ** The foreign side

    A poll function is foreign code.  All it can do to a task is call the
    four exported waker functions, which return nothing, so one poll is
    described by the waker calls it makes on the polling thread and by the
    integer it returns.  [foreign_code] gives that, for each poll-function
    address, task, future handle and current world. *)

Inductive waker_call : Type :=
  | call_waker_clone (data : ptr)
  | call_waker_wake (data : ptr)
  | call_waker_wake_by_ref (data : ptr)
  | call_waker_dispose (data : ptr).

Definition foreign_code : Type :=
  rust_future_poll_fn → ptr → ptr → world → list waker_call * Z.

Definition seastar_rs_waker_clone (th : thread) (data : ptr) : M unit :=
  inc_ref data.

Definition seastar_rs_waker_wake (th : thread) (data : ptr) : M unit :=
  wake th data.

Definition seastar_rs_waker_wake_by_ref (th : thread) (data : ptr) : M unit :=
  wake_by_ref th data.

Definition seastar_rs_waker_dispose (th : thread) (data : ptr) : M unit :=
  dec_ref th data.

Definition do_waker_call (th : thread) (c : waker_call) : M unit :=
  match c with
  | call_waker_clone data => seastar_rs_waker_clone th data
  | call_waker_wake data => seastar_rs_waker_wake th data
  | call_waker_wake_by_ref data => seastar_rs_waker_wake_by_ref th data
  | call_waker_dispose data => seastar_rs_waker_dispose th data
  end.

Fixpoint do_waker_calls (th : thread) (cs : list waker_call) : M unit :=
  match cs with
  | [] => mret ()
  | c :: cs' => do_waker_call th c;; do_waker_calls th cs'
  end.

Definition log_poll (th : thread) (this fut : ptr) : M unit :=
  λ w, (Done (),
        {| heap := heap w; brk := brk w; run_queue := run_queue w;
           mailbox := mailbox w; graveyard := graveyard w;
           polls := polls w ++ [(th, this, fut)] |}).

(** [new rust_task(poll_fn, fut)] on thread [th]; the constructor body is
    [assert(_origin_engine)]. *)
Definition new_rust_task (th : thread) (poll_fn : rust_future_poll_fn)
    (fut : ptr) : M ptr :=
  λ w,
    let this := brk w in
    let t := {| _ref_count := 1; _origin_engine := engine th;
                _origin_shard := this_shard_id th; _sched_state := idle;
                _poll_fn := poll_fn; _rust_future := fut |} in
    let w' := {| heap := <[this := t]> (heap w); brk := brk w + 1;
                 run_queue := run_queue w; mailbox := mailbox w;
                 graveyard := graveyard w; polls := polls w |} in
    (assert (bool_decide (engine th ≠ 0));; mret this) w'.

Section Foreign.

Variable rust : foreign_code.

(** [_poll_fn(this, _rust_future)] *)
Definition invoke_poll (th : thread) (poll_fn : rust_future_poll_fn)
    (this fut : ptr) : M Z :=
  λ w,
    let '(calls, r) := rust poll_fn this fut w in
    (log_poll th this fut;; do_waker_calls th calls;; mret r) w.

Definition run_and_dispose (th : thread) (this : ptr) : M unit :=
  t ← deref this;
  assert (is_on_right_thread th t);;
  assert (bool_decide (_sched_state t ≠ done));;
  update this (set_sched_state executing);;
  r ← invoke_poll th (_poll_fn t) this (_rust_future t);
  let finished := bool_decide (r = 1) in
  (if finished then
     update this (set_sched_state done);;
     dec_ref_local th this
   else mret ());;
  t' ← deref this;
  if bool_decide (_sched_state t' = executing_with_pending_schedule) then
    schedule th this;;
    update this (set_sched_state executing)
  else
    update this (set_sched_state idle).

Definition seastar_rs_spawn (th : thread) (poll_fn : rust_future_poll_fn)
    (rust_future : ptr) : M unit :=
  this ← new_rust_task th poll_fn rust_future;
  run_and_dispose th this.

Definition seastar_rs_submit_to (th : thread) (poll_fn : rust_future_poll_fn)
    (rust_future : ptr) (shard : shard_id) : M unit :=
  smp_submit th shard (spawn_and_run poll_fn rust_future).

(** The reactor executing a mailbox item on thread [th]. *)
Definition run_callable (th : thread) (f : callable) : M unit :=
  match f with
  | delete_this this => delete_task th this
  | wake_and_release this => wake_lambda th this
  | spawn_and_run poll_fn rust_future =>
      this ← new_rust_task th poll_fn rust_future;
      run_and_dispose th this
  end.

(** The dispatcher as the specification words it, for comparison with
    [call_on_origin_thread]: inline on the owning worker, intra-pool
    messaging from another worker of the same engine, the foreign-thread
    ingress otherwise. *)
Definition dispatch_as_specified (th : thread) (this : ptr) (f : callable)
  : M unit :=
  t ← deref this;
  if is_on_right_thread th t then
    run_callable th f
  else if bool_decide (engine th = _origin_engine t) then
    smp_submit th (_origin_shard t) f
  else
    alien_run (_origin_engine t) (_origin_shard t) f.

End Foreign.

(** ** Wake requests as the owning worker processes them

    A consuming [wake] reaches the owning worker as the closure it
    submitted; a [wake_by_ref] issued on the owning worker runs there
    directly. *)

Inductive wake_request : Type :=
  | consuming_wake
  | wake_by_reference.

Global Instance wake_request_eq_dec : EqDecision wake_request.
Proof. solve_decision. Defined.

Definition process_wake (th : thread) (this : ptr) (r : wake_request)
  : M unit :=
  match r with
  | consuming_wake => wake_lambda th this
  | wake_by_reference => wake_by_ref th this
  end.

Fixpoint process_wakes (th : thread) (this : ptr) (rs : list wake_request)
  : M unit :=
  match rs with
  | [] => mret ()
  | r :: rs' => process_wake th this r;; process_wakes th this rs'
  end.

Definition consuming_wakes (rs : list wake_request) : Z :=
  Z.of_nat (length (filter (λ r, r = consuming_wake) rs)).

(** The state [do_wake] leaves, by the state it finds (its [switch]). *)
Definition woken (s : scheduling_state) : scheduling_state :=
  match s with
  | idle => scheduled
  | scheduled => scheduled
  | executing => executing_with_pending_schedule
  | executing_with_pending_schedule => executing_with_pending_schedule
  | done => done
  end.

(** What an observer sees of a task. *)
Definition sched_state_of (this : ptr) (w : world) : option scheduling_state :=
  _sched_state <$> heap w !! this.

Definition ref_count_of (this : ptr) (w : world) : option Z :=
  _ref_count <$> heap w !! this.

Definition origin (t : rust_task) : thread :=
  Thread (_origin_engine t) (_origin_shard t).

(** The world in which the task at [this], currently [t], has had its
    scheduling state set to [s]. *)
Definition with_sched_state (s : scheduling_state) (this : ptr)
    (t : rust_task) (w : world) : world :=
  with_heap (<[this := set_sched_state s t]> (heap w)) w.




(** ** The reactor driving everything

    One step of the whole system: some thread calls an exported function,
    or the reactor takes one item out of the mailbox or out of the run
    queue and executes it on the thread the item belongs to.  Items may be
    taken in any order. *)

Inductive action : Type :=
  | act_waker (th : thread) (c : waker_call)
  | act_spawn (th : thread) (poll_fn : rust_future_poll_fn) (fut : ptr)
  | act_submit_to (th : thread) (poll_fn : rust_future_poll_fn) (fut : ptr)
      (shard : shard_id)
  | act_deliver (i : nat)
  | act_run (i : nat).

Definition take_message (i : nat) : M (option message) :=
  λ w, (Done (mailbox w !! i),
        {| heap := heap w; brk := brk w; run_queue := run_queue w;
           mailbox := base.delete i (mailbox w); graveyard := graveyard w;
           polls := polls w |}).

Definition take_queued (i : nat) : M (option (thread * ptr)) :=
  λ w, (Done (run_queue w !! i),
        {| heap := heap w; brk := brk w;
           run_queue := base.delete i (run_queue w);
           mailbox := mailbox w; graveyard := graveyard w;
           polls := polls w |}).

Definition step (rust : foreign_code) (a : action) : M unit :=
  match a with
  | act_waker th c => do_waker_call th c
  | act_spawn th poll_fn fut => seastar_rs_spawn rust th poll_fn fut
  | act_submit_to th poll_fn fut shard =>
      seastar_rs_submit_to th poll_fn fut shard
  | act_deliver i =>
      m ← take_message i;
      match m with
      | Some m => run_callable rust (target m) (work m)
      | None => mret ()
      end
  | act_run i =>
      e ← take_queued i;
      match e with
      | Some (th, this) => run_and_dispose rust th this
      | None => mret ()
      end
  end.

Fixpoint steps (rust : foreign_code) (acts : list action) : M unit :=
  match acts with
  | [] => mret ()
  | a :: acts' => step rust a;; steps rust acts'
  end.

(** *** Thread affinity *)

(** Address [p] has been handed out, and a task living there has [th] as
    its origin. *)
Definition owned_by (w : world) (th : thread) (p : ptr) : Prop :=
  p < brk w ∧ ∀ t, heap w !! p = Some t → th = origin t.

Definition callable_ok (w : world) (th : thread) (f : callable) : Prop :=
  match f with
  | delete_this p | wake_and_release p => owned_by w th p
  | spawn_and_run _ _ => True
  end.

Definition buried_at_home (b : burial) : Prop :=
  buried_on b = origin (buried b).

Record affine (w : world) : Prop := Affine {
  affine_heap : ∀ p t, heap w !! p = Some t → p < brk w;
  affine_mailbox : Forall (λ m, callable_ok w (target m) (work m)) (mailbox w);
  affine_run_queue : Forall (λ e, owned_by w e.1 e.2) (run_queue w);
  affine_graveyard : Forall buried_at_home (graveyard w)
}.

(** [w'] is a later world than [w]: addresses are never handed out twice
    and a task never changes its origin. *)
Definition later_than (w w' : world) : Prop :=
  brk w ≤ brk w' ∧
  ∀ p t', p < brk w → heap w' !! p = Some t' →
          ∃ t, heap w !! p = Some t ∧ origin t = origin t'.

(** [m], started in an affine world where [P] holds, ends (normally or
    with a fault) in an affine, later world. *)
Definition keeps_affine {A} (P : world → Prop) (m : M A) : Prop :=
  ∀ w r w', affine w → P w → m w = (r, w') → affine w' ∧ later_than w w'.

Definition stable (P : world → Prop) : Prop :=
  ∀ w w', P w → later_than w w' → P w'.

(** ** Sample configurations *)

Definition owner : thread := Thread 4096 0%N.
Definition sibling : thread := Thread 4096 1%N.
Definition outsider : thread := Thread 0 0%N.

Definition sample_task (c : Z) (s : scheduling_state) : rust_task :=
  {| _ref_count := c; _origin_engine := 4096; _origin_shard := 0%N;
     _sched_state := s; _poll_fn := 7; _rust_future := 9 |}.

Definition one_task (this : ptr) (t : rust_task) : world :=
  {| heap := {[this := t]}; brk := this + 1; run_queue := [];
     mailbox := []; graveyard := []; polls := [] |}.

Definition no_tasks : world :=
  {| heap := ∅; brk := 1; run_queue := []; mailbox := [];
     graveyard := []; polls := [] |}.

(** Foreign futures: ready at once; ready at once after cloning a waker;
    pending after waking the task in place [n] times. *)
Definition poll_ready : foreign_code := λ _ _ _ _, ([], 1).

Definition poll_ready_keeping_waker : foreign_code :=
  λ _ this _ _, ([call_waker_clone this], 1).

Definition poll_pending_waking (n : nat) : foreign_code :=
  λ _ this _ _, (replicate n (call_waker_wake_by_ref this), 0).

(** ** Further statements about the task *)

(** [m] leaves the observation [obs] of the world as it was, however it
    ends. *)
Definition preserves {A B} (obs : world → B) (m : M A) : Prop :=
  ∀ w r w', m w = (r, w') → obs w' = obs w.

(** The reactor running the closure that was submitted last. *)
Definition deliver_last (rust : foreign_code) : M unit :=
  λ w, step rust (act_deliver (length (mailbox w) - 1)) w.

(** ** Submissions to the caller's own shard

    The dispatcher and the consuming wake of [rust_task], with
    [smp::submit_to] invoking a same-shard closure at once. *)

Module shortcut.
Section SameShard.

Variable rust : foreign_code.

(** Modelled from the spec: [seastar::smp::submit_to(shard, f)] with its
    same-shard case.  The function is Seastar's, not part of these
    sources.  The specification has a callable that is already on the
    worker it must run on "run inline, no indirection, no queuing delay",
    and Seastar's function does that: called with the caller's own shard
    it invokes [f] on the calling thread before it returns; for every
    other shard it queues [f], which is [smp_submit]. *)
Definition submit_to (th : thread) (shard : shard_id) (f : callable)
  : M unit :=
  if bool_decide (shard = this_shard_id th) then
    run_callable rust th f
  else
    smp_submit th shard f.

(** [rust_task::call_on_origin_thread], with [smp::submit_to] as above. *)
Definition call_on_origin_thread (th : thread) (this : ptr) (f : callable)
  : M unit :=
  t ← deref this;
  if bool_decide (engine th ≠ _origin_engine t) then
    alien_run (_origin_engine t) (_origin_shard t) f
  else
    submit_to th (_origin_shard t) f.

(** [rust_task::wake] *)
Definition wake (th : thread) (this : ptr) : M unit :=
  call_on_origin_thread th this (wake_and_release this).

End SameShard.
End shortcut.

(** ** future_wrapper_base (seastar/rust/future.hh)

    [future_wrapper_base<T>] owns one heap-allocated [future_type] through
    its member [_f].  The free store of [future_type] objects is explicit;
    a wrapper object is the value of its [_f].  ([operator=] is left out:
    its body ends without returning the reference it declares.)

    The vtable entries that [SEASTAR_RS_DEFINE_FUTURE_WRAPPER] defines are
    not embedded.  The body of its [poll_fn] reads [fut.get()] and the body
    of [attach_wait_state] reads [fut->then(..)], where [fut] is the
    [void*] parameter and not [typed_fut]: neither is well-formed C++, so
    no expansion of the macro yields a function to translate. *)

Module future_wrapper_base.
Section Wrapper.

Context {future_type : Type}.

Record store : Type := Store {
  cells : gmap ptr future_type;   (* allocated future_type objects *)
  top : ptr                       (* next address [new] hands out *)
}.

Record wrapper : Type := Wrapper { _f : ptr }.

(** [new future_type(std::move(f))] *)
Definition new_future (f : future_type) (s : store) : ptr * store :=
  (top s, {| cells := <[top s := f]> (cells s); top := top s + 1 |}).

(** [delete p]; deleting [nullptr] does nothing, deleting an address that
    holds no object is a fault. *)
Definition delete_future (p : ptr) (s : store) : result store :=
  if bool_decide (p = 0) then Done s
  else
    match cells s !! p with
    | Some _ => Done {| cells := base.delete p (cells s); top := top s |}
    | None => Fault use_after_free
    end.

(** [future_wrapper_base(future_type&& f)] *)
Definition construct (f : future_type) (s : store) : wrapper * store :=
  let '(p, s') := new_future f s in ({| _f := p |}, s').

(** [~future_wrapper_base()] *)
Definition destroy (this : wrapper) (s : store) : result store :=
  delete_future (_f this) s.

(** [future_wrapper_base(future_wrapper_base&& other)]: the new wrapper
    and what is left of [other]. *)
Definition move_construct (other : wrapper) : wrapper * wrapper :=
  ({| _f := _f other |}, {| _f := 0 |}).

(** [unwrap()]: the future, what is left of the wrapper, the store. *)
Definition unwrap (this : wrapper) (s : store)
  : result (future_type * wrapper * store) :=
  if bool_decide (_f this = 0) then Fault assertion_failed
  else
    match cells s !! _f this with
    | Some ret =>
        match delete_future (_f this) s with
        | Done s' => Done (ret, {| _f := 0 |}, s')
        | Fault e => Fault e
        end
    | None => Fault use_after_free
    end.

(** Addresses in use are positive and below [top]. *)
Definition store_wf (s : store) : Prop :=
  0 < top s ∧ ∀ p f, cells s !! p = Some f → 0 < p < top s.

Definition empty_store : store := {| cells := ∅; top := 1 |}.

End Wrapper.
End future_wrapper_base.

(** ** Relations between the world before and the world after

    [keeps R P m]: started in an affine world where [P] holds, [m] ends
    (normally or with a fault) in a world related to the first by [R]. *)
Definition keeps (R : world → world → Prop) {A} (P : world → Prop)
    (m : M A) : Prop :=
  ∀ w r w', affine w → P w → m w = (r, w') → R w w'.

(** Tasks that belong to a thread other than [th] are still there, in the
    scheduling state they were in. *)
Definition untouched_elsewhere (th : thread) (w w' : world) : Prop :=
  ∀ p t, heap w !! p = Some t → origin t ≠ th →
    ∃ t', heap w' !! p = Some t' ∧
          _sched_state t' = _sched_state t ∧ origin t' = origin t.

(** The thread on which the reactor or the caller executes an action. *)
Definition actor (a : action) (w : world) : option thread :=
  match a with
  | act_waker th _ | act_spawn th _ _ | act_submit_to th _ _ _ => Some th
  | act_deliver i => target <$> mailbox w !! i
  | act_run i => fst <$> run_queue w !! i
  end.

(** *** The run queue and the scheduling states *)

(** How many times the task at [p] is in a run queue. *)
Definition entries (p : ptr) (q : list (thread * ptr)) : nat :=
  length (filter (λ e, e.2 = p) q).

(** The number of run-queue entries that goes with a scheduling state
    between runs: none when idle, one when scheduled or when re-queued
    after a wake during a run; done is not a state a task rests in. *)
Definition rests_with (s : scheduling_state) (n : nat) : Prop :=
  match s with
  | idle => n = 0%nat
  | scheduled | executing | executing_with_pending_schedule => n = 1%nat
  | done => False
  end.

Definition at_most_once_queued (w : world) : Prop :=
  ∀ p, (entries p (run_queue w) ≤ 1)%nat.

(** Every live task, the one at [x] excepted, rests as [rests_with] says. *)
Definition consistent_except (x : option ptr) (w : world) : Prop :=
  at_most_once_queued w ∧
  ∀ p t, heap w !! p = Some t → x ≠ Some p →
         rests_with (_sched_state t) (entries p (run_queue w)).

(** The task at [this] is inside its poll call: taken out of the queue
    and executing. *)
Definition being_polled (this : ptr) (w : world) : Prop :=
  entries this (run_queue w) = 0%nat ∧
  ∀ t, heap w !! this = Some t →
       _sched_state t = executing ∨
       _sched_state t = executing_with_pending_schedule.

Definition queue_consistent (running : option ptr) (w : world) : Prop :=
  consistent_except running w ∧
  match running with
  | Some this => being_polled this w
  | None => True
  end.

(** [queue_consistent running] carries over. *)
Definition stays_consistent (running : option ptr) (w w' : world) : Prop :=
  queue_consistent running w → queue_consistent running w'.

(** No live task is done. *)
Definition nobody_done (w : world) : Prop :=
  ∀ p t, heap w !! p = Some t → _sched_state t ≠ done.

(** ** Stepping through the monad *)

Lemma bind_Done {A B} (m : M A) (k : A → M B) w a w' :
  m w = (Done a, w') → (m ≫= k) w = k a w'.
Proof. intros H. unfold mbind, M_bind. by rewrite H. Qed.

Lemma bind_Fault {A B} (m : M A) (k : A → M B) w f w' :
  m w = (Fault f, w') → (m ≫= k) w = (Fault f, w').
Proof. intros H. unfold mbind, M_bind. by rewrite H. Qed.

Lemma deref_live this t w :
  heap w !! this = Some t → deref this w = (Done t, w).
Proof. intros H. unfold deref. by rewrite H. Qed.

Lemma update_live this f t w :
  heap w !! this = Some t →
  update this f w = (Done (), with_heap (<[this := f t]> (heap w)) w).
Proof. intros H. unfold update. by rewrite H. Qed.

Lemma fetch_sub_live this n t w :
  heap w !! this = Some t →
  fetch_sub this n w =
    (Done (_ref_count t),
     with_heap (<[this := set_ref_count (uint64_wrap (_ref_count t - n)) t]>
                  (heap w)) w).
Proof.
  intros H. unfold fetch_sub.
  rewrite (bind_Done _ _ _ _ _ (deref_live _ _ _ H)).
  by rewrite (bind_Done _ _ _ _ _ (update_live _ _ _ _ H)).
Qed.

Lemma fetch_add_live this n t w :
  heap w !! this = Some t →
  fetch_add this n w =
    (Done (_ref_count t),
     with_heap (<[this := set_ref_count (uint64_wrap (_ref_count t + n)) t]>
                  (heap w)) w).
Proof.
  intros H. unfold fetch_add.
  rewrite (bind_Done _ _ _ _ _ (deref_live _ _ _ H)).
  by rewrite (bind_Done _ _ _ _ _ (update_live _ _ _ _ H)).
Qed.

Lemma do_wake_live th this t w :
  heap w !! this = Some t →
  _origin_shard t = this_shard_id th →
  do_wake th this w =
    (Done (),
     match _sched_state t with
     | idle =>
         with_heap (<[this := set_sched_state scheduled t]> (heap w))
                   (enqueued th this w)
     | executing =>
         with_heap
           (<[this := set_sched_state executing_with_pending_schedule t]>
              (heap w)) w
     | _ => w
     end).
Proof.
  intros H Hs. unfold do_wake.
  rewrite (bind_Done _ _ _ _ _ (deref_live _ _ _ H)).
  rewrite bool_decide_true by done.
  destruct (_sched_state t); try done.
  - unfold mbind, M_bind, assert, schedule, update; cbn. by rewrite H.
  - unfold mbind, M_bind, assert, update; cbn. by rewrite H.
Qed.

Lemma is_on_right_thread_origin th t :
  is_on_right_thread th t = true ↔ th = origin t.
Proof.
  unfold is_on_right_thread, origin. destruct th as [e s]; cbn.
  rewrite andb_true_iff, !bool_decide_eq_true. split.
  - by intros [-> ->].
  - by intros [= -> ->].
Qed.

Lemma delete_task_live th this t w :
  heap w !! this = Some t →
  delete_task th this w = (Done (), entombed th this t w).
Proof. intros H. unfold delete_task. by rewrite H. Qed.

Lemma dec_ref_local_live th this t w :
  heap w !! this = Some t →
  dec_ref_local th this w =
    (Done (),
     if bool_decide (_ref_count t = 1) then
       entombed th this (released t)
                (with_heap (<[this := released t]> (heap w)) w)
     else with_heap (<[this := released t]> (heap w)) w).
Proof.
  intros H. unfold dec_ref_local.
  rewrite (bind_Done _ _ _ _ _ (fetch_sub_live _ _ _ _ H)).
  case_bool_decide; [|done].
  erewrite delete_task_live; [done|]. cbn. by rewrite lookup_insert_eq.
Qed.

Lemma uint64_wrap_small z : 0 ≤ z < 2 ^ 64 → uint64_wrap z = z.
Proof. intros. unfold uint64_wrap. by apply Z.mod_small. Qed.

Lemma wake_by_ref_on_origin th this t w :
  heap w !! this = Some t →
  th = origin t →
  wake_by_ref th this w = do_wake th this w.
Proof.
  intros H Hth. unfold wake_by_ref.
  rewrite (bind_Done _ _ _ _ _ (deref_live _ _ _ H)).
  apply is_on_right_thread_origin in Hth. by rewrite Hth.
Qed.

(** ** Wake-ups on the owning worker *)

Lemma woken_not_idle s : woken s ≠ idle.
Proof. by destruct s. Qed.

Lemma woken_idem s : woken (woken s) = woken s.
Proof. by destruct s. Qed.

Lemma consuming_wakes_cons r rs :
  consuming_wakes (r :: rs) =
    (if decide (r = consuming_wake) then 1 else 0) + consuming_wakes rs.
Proof.
  unfold consuming_wakes. rewrite filter_cons.
  destruct (decide (r = consuming_wake)); cbn [length]; lia.
Qed.

Lemma consuming_wakes_nonneg rs : 0 ≤ consuming_wakes rs.
Proof. unfold consuming_wakes. lia. Qed.

(** One wake request processed on the owning worker. *)
Lemma process_wake_on_owner th this r t w :
  heap w !! this = Some t →
  th = origin t →
  (r = consuming_wake → 1 < _ref_count t < 2 ^ 64) →
  ∃ w' t',
    process_wake th this r w = (Done (), w') ∧
    heap w' !! this = Some t' ∧
    origin t' = origin t ∧
    _sched_state t' = woken (_sched_state t) ∧
    _ref_count t' =
      _ref_count t - (if decide (r = consuming_wake) then 1 else 0) ∧
    run_queue w' =
      run_queue w ++
        (if decide (_sched_state t = idle) then [(th, this)] else []).
Proof.
  intros H Hth Hrc.
  assert (Hsh : _origin_shard t = this_shard_id th) by by subst th.
  pose proof (do_wake_live th this t w H Hsh) as Hw.
  assert (∃ w1 t1, do_wake th this w = (Done (), w1) ∧
            heap w1 !! this = Some t1 ∧ origin t1 = origin t ∧
            _sched_state t1 = woken (_sched_state t) ∧
            _ref_count t1 = _ref_count t ∧
            run_queue w1 = run_queue w ++
              (if decide (_sched_state t = idle) then [(th, this)] else []))
    as (w1 & t1 & Hw1 & H1 & Ho1 & Hs1 & Hc1 & Hq1).
  { rewrite Hw. destruct (_sched_state t) eqn:Hst; cbn [woken].
    1,3: eexists _, _; (split; [done|]); cbn;
         rewrite lookup_insert_eq, ?app_nil_r; by repeat split.
    all: exists w, t; rewrite app_nil_r; by repeat split. }
  destruct r; cbn [process_wake].
  - specialize (Hrc eq_refl).
    unfold wake_lambda. rewrite (bind_Done _ _ _ _ _ Hw1).
    rewrite (dec_ref_local_live _ _ _ _ H1).
    rewrite bool_decide_false by lia.
    eexists _, _. split; [done|]. cbn. rewrite lookup_insert_eq.
    split; [done|]. split; [done|]. split; [done|]. split; [|done].
    cbn. rewrite uint64_wrap_small by lia. rewrite Hc1. by rewrite decide_True.
  - rewrite (wake_by_ref_on_origin _ _ _ _ H Hth).
    exists w1, t1. rewrite decide_False by done. rewrite Z.sub_0_r.
    by repeat split.
Qed.

(** Wake requests processed while the task is anything but idle add
    nothing to the run queue. *)
Lemma process_wakes_not_idle th this rs : ∀ t w,
  heap w !! this = Some t →
  th = origin t →
  _sched_state t ≠ idle →
  consuming_wakes rs < _ref_count t < 2 ^ 64 →
  ∃ w' t',
    process_wakes th this rs w = (Done (), w') ∧
    heap w' !! this = Some t' ∧
    _sched_state t' =
      (if rs is [] then _sched_state t else woken (_sched_state t)) ∧
    _ref_count t' = _ref_count t - consuming_wakes rs ∧
    run_queue w' = run_queue w.
Proof.
  induction rs as [|r rs IH]; intros t w H Hth Hst Hrc.
  - exists w, t. unfold consuming_wakes. cbn. rewrite Z.sub_0_r.
    by repeat split.
  - rewrite consuming_wakes_cons in Hrc.
    pose proof (consuming_wakes_nonneg rs).
    destruct (process_wake_on_owner th this r t w H Hth)
      as (w1 & t1 & Hp & H1 & Ho1 & Hs1 & Hc1 & Hq1).
    { intros ->. rewrite decide_True in Hrc by done. lia. }
    destruct (IH t1 w1 H1) as (w2 & t2 & Hp2 & H2 & Hs2 & Hc2 & Hq2).
    { by rewrite Hth, Ho1. }
    { rewrite Hs1. apply woken_not_idle. }
    { rewrite Hc1. destruct (decide (r = consuming_wake)); lia. }
    exists w2, t2. cbn [process_wakes]. rewrite (bind_Done _ _ _ _ _ Hp).
    split; [done|]. split; [done|].
    split; [rewrite Hs2, Hs1; destruct rs; by rewrite ?woken_idem|].
    split; [rewrite consuming_wakes_cons; lia|].
    rewrite Hq2, Hq1. rewrite decide_False by done. by rewrite app_nil_r.
Qed.

(** C3: a wake request processed on the owning worker moves idle to
    scheduled with exactly one enqueue, executing to
    executing_with_pending_schedule with no enqueue, and leaves scheduled,
    executing_with_pending_schedule and done untouched with no enqueue;
    hence any non-empty sequence of wake / wake_by_ref requests processed
    while the task is idle leaves exactly one new run-queue entry. *)
Theorem wake_transition_and_single_enqueue th this t w :
  heap w !! this = Some t →
  th = origin t →
  (∃ w',
     do_wake th this w = (Done (), w') ∧
     mailbox w' = mailbox w ∧ graveyard w' = graveyard w ∧
     ref_count_of this w' = Some (_ref_count t) ∧
     match _sched_state t with
     | idle =>
         sched_state_of this w' = Some scheduled ∧
         run_queue w' = run_queue w ++ [(th, this)]
     | scheduled =>
         sched_state_of this w' = Some scheduled ∧
         run_queue w' = run_queue w
     | executing =>
         sched_state_of this w' = Some executing_with_pending_schedule ∧
         run_queue w' = run_queue w
     | executing_with_pending_schedule =>
         sched_state_of this w' = Some executing_with_pending_schedule ∧
         run_queue w' = run_queue w
     | done =>
         sched_state_of this w' = Some done ∧
         run_queue w' = run_queue w
     end) ∧
  (∀ rs,
     _sched_state t = idle →
     rs ≠ [] →
     consuming_wakes rs < _ref_count t < 2 ^ 64 →
     ∃ w',
       process_wakes th this rs w = (Done (), w') ∧
       sched_state_of this w' = Some scheduled ∧
       run_queue w' = run_queue w ++ [(th, this)]).
Proof.
  intros H Hth. split.
  - assert (Hsh : _origin_shard t = this_shard_id th) by by subst th.
    rewrite (do_wake_live th this t w H Hsh).
    eexists. split; [done|].
    unfold sched_state_of, ref_count_of.
    destruct (_sched_state t) eqn:Hst; cbn;
      rewrite ?lookup_insert_eq, ?H; cbn; rewrite ?Hst; done.
  - intros [|r rs] Hst Hne Hrc; [done|].
    rewrite consuming_wakes_cons in Hrc.
    pose proof (consuming_wakes_nonneg rs).
    destruct (process_wake_on_owner th this r t w H Hth)
      as (w1 & t1 & Hp & H1 & Ho1 & Hs1 & Hc1 & Hq1).
    { intros ->. rewrite decide_True in Hrc by done. lia. }
    rewrite Hst in Hs1. cbn in Hs1.
    destruct (process_wakes_not_idle th this rs t1 w1 H1)
      as (w2 & t2 & Hp2 & H2 & Hs2 & Hc2 & Hq2).
    { by rewrite Hth, Ho1. }
    { by rewrite Hs1. }
    { rewrite Hc1. destruct (decide (r = consuming_wake)); lia. }
    exists w2. cbn [process_wakes]. rewrite (bind_Done _ _ _ _ _ Hp).
    split; [done|]. unfold sched_state_of. rewrite H2. cbn.
    split; [rewrite Hs2, Hs1; by destruct rs|].
    rewrite Hq2, Hq1. by rewrite decide_True.
Qed.

(** ** The run contract *)

Lemma call_on_origin_thread_live th this f t w :
  heap w !! this = Some t →
  call_on_origin_thread th this f w =
    (if bool_decide (engine th ≠ _origin_engine t) then
       alien_run (_origin_engine t) (_origin_shard t) f
     else smp_submit th (_origin_shard t) f) w.
Proof.
  intros H. unfold call_on_origin_thread.
  by rewrite (bind_Done _ _ _ _ _ (deref_live _ _ _ H)).
Qed.

(** [call_on_origin_thread] on a live task only appends to the mailbox. *)
Lemma call_on_origin_thread_posts th this f t w :
  heap w !! this = Some t →
  ∃ w', call_on_origin_thread th this f w = (Done (), w') ∧
        heap w' = heap w ∧ run_queue w' = run_queue w ∧
        graveyard w' = graveyard w ∧ brk w' = brk w ∧ polls w' = polls w ∧
        mailbox w' =
          mailbox w ++
            [Message (if bool_decide (engine th ≠ _origin_engine t)
                      then alien_run_on else smp_submit_to)
                     (origin t) f].
Proof.
  intros H. rewrite (call_on_origin_thread_live _ _ _ _ _ H).
  case_bool_decide as He.
  - eexists. split; [done|]. by repeat split.
  - eexists. split; [done|].
    cbn. unfold origin. rewrite <- He. by repeat split.
Qed.



Lemma run_and_dispose_prologue rust th this t w :
  heap w !! this = Some t →
  th = origin t →
  _sched_state t ≠ done →
  run_and_dispose rust th this w =
    (r ← invoke_poll rust th (_poll_fn t) this (_rust_future t);
     (if bool_decide (r = 1) then
        update this (set_sched_state done);;
        dec_ref_local th this
      else mret ());;
     t' ← deref this;
     if bool_decide (_sched_state t' = executing_with_pending_schedule) then
       schedule th this;;
       update this (set_sched_state executing)
     else
       update this (set_sched_state idle))
      (with_sched_state executing this t w).
Proof.
  intros H Hth Hst. unfold run_and_dispose.
  rewrite (bind_Done _ _ _ _ _ (deref_live _ _ _ H)).
  apply is_on_right_thread_origin in Hth. rewrite Hth.
  rewrite bool_decide_true by done.
  unfold assert at 1 2. unfold mbind at 1 2, M_bind at 1 2.
  by rewrite (bind_Done _ _ _ _ _ (update_live _ _ _ _ H)).
Qed.




(** ** Reference counting *)

Lemma do_wake_keeps th this t w :
  heap w !! this = Some t →
  th = origin t →
  ∃ w1 t1,
    do_wake th this w = (Done (), w1) ∧
    heap w1 !! this = Some t1 ∧
    _ref_count t1 = _ref_count t ∧
    origin t1 = origin t ∧
    graveyard w1 = graveyard w ∧
    mailbox w1 = mailbox w.
Proof.
  intros H Hth.
  rewrite (do_wake_live th this t w H) by by subst th.
  destruct (_sched_state t);
    eexists _, _; (split; [done|]); cbn; rewrite ?lookup_insert_eq;
    by repeat split.
Qed.

Lemma new_rust_task_fresh th pf fut w :
  engine th ≠ 0 →
  ∃ w',
    new_rust_task th pf fut w = (Done (brk w), w') ∧
    heap w' !! brk w =
      Some (RustTask 1 (engine th) (this_shard_id th) idle pf fut).
Proof.
  intros He. unfold new_rust_task, mbind, M_bind, mret, M_ret, assert; cbn.
  rewrite bool_decide_true by done.
  eexists. split; [done|]. cbn. apply lookup_insert_eq.
Qed.

Lemma dec_ref_live th this t w :
  heap w !! this = Some t →
  ∃ w',
    dec_ref th this w = (Done (), w') ∧
    heap w' = <[this := released t]> (heap w) ∧
    graveyard w' = graveyard w ∧
    run_queue w' = run_queue w ∧
    mailbox w' =
      mailbox w ++
        (if decide (_ref_count t = 1) then
           [Message (if bool_decide (engine th ≠ _origin_engine t)
                     then alien_run_on else smp_submit_to)
                    (origin t) (delete_this this)]
         else []).
Proof.
  intros H. unfold dec_ref.
  rewrite (bind_Done _ _ _ _ _ (fetch_sub_live _ _ _ _ H)).
  case_bool_decide as Hc.
  - edestruct (call_on_origin_thread_posts th this (delete_this this))
      as (w' & -> & Hh & Hq & Hg & _ & _ & Hm).
    { cbn. apply lookup_insert_eq. }
    exists w'. rewrite decide_True by done. by repeat split.
  - eexists. split; [done|]. rewrite decide_False by done.
    cbn. rewrite app_nil_r. by repeat split.
Qed.

(** The count, operation by operation: it is 1 at construction; a waker
    clone adds exactly one; a waker disposal, a consuming wake (once
    processed on the owning worker) and a completed poll each subtract
    exactly one; the task is destroyed (in place, or through a relayed
    deletion) exactly when that subtraction reaches zero, and stays live
    with every other outcome.  The relays are those of the queueing
    dispatcher.  Nothing here says how often a task completes. *)
Lemma ref_count_accounting rust th this t w :
  heap w !! this = Some t →
  0 < _ref_count t < 2 ^ 64 - 1 →
  (* construction *)
  (∀ th0 pf fut w0,
     engine th0 ≠ 0 →
     ∃ w', new_rust_task th0 pf fut w0 = (Done (brk w0), w') ∧
           ref_count_of (brk w0) w' = Some 1) ∧
  (* waker clone, from any thread *)
  (∃ w', seastar_rs_waker_clone th this w = (Done (), w') ∧
         ref_count_of this w' = Some (_ref_count t + 1) ∧
         mailbox w' = mailbox w ∧ graveyard w' = graveyard w) ∧
  (* waker disposal, from any thread *)
  (∃ w', seastar_rs_waker_dispose th this w = (Done (), w') ∧
         ref_count_of this w' = Some (_ref_count t - 1) ∧
         graveyard w' = graveyard w ∧
         ((_ref_count t - 1 = 0 ∧
           ∃ ch, mailbox w' =
                   mailbox w ++ [Message ch (origin t) (delete_this this)]) ∨
          (_ref_count t - 1 ≠ 0 ∧ mailbox w' = mailbox w))) ∧
  (* the relayed deletion, once the reactor runs it *)
  (∃ w', run_callable rust (origin t) (delete_this this) w = (Done (), w') ∧
         heap w' !! this = None ∧
         graveyard w' = graveyard w ++ [Burial (origin t) this t]) ∧
  (* consuming wake, processed on the owning worker *)
  (th = origin t →
   ∃ w', run_callable rust th (wake_and_release this) w = (Done (), w') ∧
         mailbox w' = mailbox w ∧
         ((_ref_count t - 1 = 0 ∧ heap w' !! this = None ∧
           ∃ t', graveyard w' = graveyard w ++ [Burial th this t'] ∧
                 _ref_count t' = 0) ∨
          (_ref_count t - 1 ≠ 0 ∧
           ref_count_of this w' = Some (_ref_count t - 1) ∧
           graveyard w' = graveyard w))) ∧
  (* completion of the task's own poll *)
  (th = origin t →
   _sched_state t ≠ done →
   ∀ w2 t2,
     invoke_poll rust th (_poll_fn t) this (_rust_future t)
       (with_sched_state executing this t w) = (Done 1, w2) →
     heap w2 !! this = Some t2 →
     0 < _ref_count t2 < 2 ^ 64 →
     let w' := snd (run_and_dispose rust th this w) in
     mailbox w' = mailbox w2 ∧
     ((_ref_count t2 - 1 = 0 ∧ heap w' !! this = None ∧
       ∃ t', graveyard w' = graveyard w2 ++ [Burial th this t'] ∧
             _ref_count t' = 0) ∨
      (_ref_count t2 - 1 ≠ 0 ∧
       ref_count_of this w' = Some (_ref_count t2 - 1) ∧
       graveyard w' = graveyard w2))).
Proof.
  intros H Hrc. unfold ref_count_of.
  split; [|split; [|split; [|split; [|split]]]].
  - intros th0 pf fut w0 He.
    destruct (new_rust_task_fresh th0 pf fut w0 He) as (w' & Hn & Hl).
    exists w'. split; [done|]. by rewrite Hl.
  - unfold seastar_rs_waker_clone, inc_ref.
    rewrite (bind_Done _ _ _ _ _ (fetch_add_live _ _ _ _ H)).
    eexists. split; [done|]. cbn. rewrite lookup_insert_eq. cbn.
    by rewrite uint64_wrap_small by lia.
  - destruct (dec_ref_live th this t w H) as (w' & Hd & Hh & Hg & _ & Hm).
    exists w'. split; [done|]. rewrite Hh, lookup_insert_eq. cbn.
    rewrite uint64_wrap_small by lia. split; [done|]. split; [done|].
    destruct (decide (_ref_count t = 1)).
    + left. split; [lia|]. by eexists.
    + right. split; [lia|]. by rewrite Hm, app_nil_r.
  - cbn. rewrite (delete_task_live _ _ _ _ H). eexists. split; [done|].
    cbn. by rewrite lookup_delete_eq.
  - intros Hth. cbn [run_callable]. unfold wake_lambda.
    destruct (do_wake_keeps th this t w H Hth)
      as (w1 & t1 & Hw & H1 & Hc1 & _ & Hg1 & Hm1).
    rewrite (bind_Done _ _ _ _ _ Hw).
    rewrite (dec_ref_local_live _ _ _ _ H1).
    eexists. split; [done|]. case_bool_decide as Hc; cbn.
    + split; [done|]. left. split; [lia|].
      rewrite lookup_delete_eq. split; [done|].
      eexists. split; [by rewrite Hg1|]. cbn. by rewrite Hc.
    + split; [done|]. right. split; [lia|].
      rewrite lookup_insert_eq. cbn.
      rewrite uint64_wrap_small by lia. by rewrite Hc1, Hg1.
  - intros Hth Hst w2 t2 Hpoll H2 Hrc2.
    rewrite (run_and_dispose_prologue rust th this t w H Hth Hst).
    rewrite (bind_Done _ _ _ _ _ Hpoll).
    rewrite bool_decide_true by done.
    assert (Hrel : (update this (set_sched_state done);;
                    dec_ref_local th this) w2 =
              (Done (),
               let t3 := released (set_sched_state done t2) in
               if bool_decide (_ref_count t2 = 1) then
                 entombed th this t3 (with_heap (<[this := t3]> (heap w2)) w2)
               else with_heap (<[this := t3]> (heap w2)) w2)).
    { rewrite (bind_Done _ _ _ _ _ (update_live _ _ _ _ H2)).
      erewrite dec_ref_local_live by (cbn; apply lookup_insert_eq).
      cbn. by rewrite insert_insert_eq. }
    rewrite (bind_Done _ _ _ _ _ Hrel). cbn zeta.
    case_bool_decide as Hc.
    + (* the count reached zero: the task is gone *)
      erewrite bind_Fault; cycle 1.
      { unfold deref. cbn. by rewrite lookup_delete_eq. }
      cbn. split; [done|]. left. split; [lia|].
      rewrite lookup_delete_eq. split; [done|].
      eexists. split; [done|]. cbn. by rewrite Hc.
    + erewrite bind_Done by (apply deref_live; cbn; apply lookup_insert_eq).
      cbn [_sched_state released set_ref_count set_sched_state].
      rewrite bool_decide_false by done.
      erewrite update_live by (cbn; apply lookup_insert_eq).
      cbn. split; [done|]. right. split; [lia|].
      rewrite lookup_insert_eq. cbn.
      by rewrite uint64_wrap_small by lia.
Qed.

(** ** wake, wake_by_ref and the dispatcher *)

(** C8: [wake_by_ref] leaves the reference count as it found it: on the
    owning worker it is [do_wake] alone, count untouched and nothing
    relayed; elsewhere it adds one and relays the consuming wake, whose
    closure, once run on the owning worker, subtracts exactly that one. *)
Theorem wake_by_ref_net_zero rust th this t w :
  heap w !! this = Some t →
  0 < _ref_count t < 2 ^ 64 - 1 →
  (is_on_right_thread th t = true →
   wake_by_ref th this w = do_wake th this w ∧
   ∃ w', wake_by_ref th this w = (Done (), w') ∧
         ref_count_of this w' = Some (_ref_count t) ∧
         mailbox w' = mailbox w ∧ graveyard w' = graveyard w) ∧
  (is_on_right_thread th t = false →
   ∃ w1 ch,
     wake_by_ref th this w = (Done (), w1) ∧
     ref_count_of this w1 = Some (_ref_count t + 1) ∧
     sched_state_of this w1 = Some (_sched_state t) ∧
     mailbox w1 =
       mailbox w ++ [Message ch (origin t) (wake_and_release this)] ∧
     ∃ w2,
       run_callable rust (origin t) (wake_and_release this) w1
         = (Done (), w2) ∧
       ref_count_of this w2 = Some (_ref_count t) ∧
       graveyard w2 = graveyard w).
Proof.
  intros H Hrc. unfold ref_count_of, sched_state_of. split.
  - intros Hth. pose proof Hth as Ho. apply is_on_right_thread_origin in Ho.
    split; [by apply (wake_by_ref_on_origin _ _ t)|].
    rewrite (wake_by_ref_on_origin _ _ _ _ H Ho).
    destruct (do_wake_keeps th this t w H Ho)
      as (w1 & t1 & Hw & H1 & Hc1 & _ & Hg1 & Hm1).
    exists w1. rewrite H1. cbn. by rewrite Hc1.
  - intros Hth. unfold wake_by_ref.
    rewrite (bind_Done _ _ _ _ _ (deref_live _ _ _ H)). rewrite Hth.
    unfold inc_ref.
    rewrite (bind_Done _ _ _ _ _
               (bind_Done _ _ _ _ _ (fetch_add_live _ _ _ _ H))).
    set (t1 := set_ref_count (uint64_wrap (_ref_count t + 1)) t).
    set (w0 := with_heap _ w).
    assert (H0 : heap w0 !! this = Some t1) by apply lookup_insert_eq.
    unfold wake.
    destruct (call_on_origin_thread_posts th this (wake_and_release this)
                t1 w0 H0) as (w1 & Hp & Hh & _ & Hg & _ & _ & Hm).
    exists w1. eexists. split; [done|]. rewrite Hh, H0. cbn.
    rewrite uint64_wrap_small by lia.
    split; [done|]. split; [done|]. split; [exact Hm|].
    cbn [run_callable]. unfold wake_lambda.
    assert (H1 : heap w1 !! this = Some t1) by by rewrite Hh.
    destruct (do_wake_keeps (origin t) this t1 w1 H1 eq_refl)
      as (w2 & t2 & Hw & H2 & Hc2 & _ & Hg2 & _).
    rewrite (bind_Done _ _ _ _ _ Hw).
    rewrite (dec_ref_local_live _ _ _ _ H2).
    assert (Hc : _ref_count t2 = _ref_count t + 1).
    { rewrite Hc2. cbn. by rewrite uint64_wrap_small by lia. }
    rewrite bool_decide_false by lia.
    eexists. split; [done|]. cbn. rewrite lookup_insert_eq. cbn.
    rewrite Hc, uint64_wrap_small by lia.
    split; [f_equal; lia|]. by rewrite Hg2, Hg.
Qed.

(** ** Destruction stays on the owning worker *)

Lemma later_than_refl w : later_than w w.
Proof. split; [lia|]. intros p t' _ H. by exists t'. Qed.

Lemma later_than_same_heap w w' :
  heap w' = heap w → brk w' = brk w → later_than w w'.
Proof.
  intros Hh Hb. split; [lia|]. intros p t' _. rewrite Hh. by exists t'.
Qed.

Lemma later_than_trans w1 w2 w3 :
  later_than w1 w2 → later_than w2 w3 → later_than w1 w3.
Proof.
  intros [Hb12 H12] [Hb23 H23]. split; [lia|].
  intros p t3 Hp H3.
  destruct (H23 p t3) as (t2 & H2 & Ho23); [lia|done|].
  destruct (H12 p t2) as (t1 & H1 & Ho12); [done|done|].
  exists t1. split; [done|congruence].
Qed.

Lemma owned_by_later w w' th p :
  owned_by w th p → later_than w w' → owned_by w' th p.
Proof.
  intros [Hp Ho] [Hb Hl]. split; [lia|].
  intros t' H'. destruct (Hl p t' Hp H') as (t & H & <-). by apply Ho.
Qed.

Lemma callable_ok_later w w' th f :
  callable_ok w th f → later_than w w' → callable_ok w' th f.
Proof. destruct f; cbn; eauto using owned_by_later. Qed.

Lemma stable_owned_by th p : stable (λ w, owned_by w th p).
Proof. intros w w'. apply owned_by_later. Qed.

Lemma stable_True : stable (λ _, True).
Proof. done. Qed.

(** An affine world stays affine when only origin-preserving changes are
    made to the heap and everything appended to the three queues is in
    order. *)
Lemma affine_later w w' ms qs bs :
  affine w →
  later_than w w' →
  (∀ p t, heap w' !! p = Some t → p < brk w') →
  mailbox w' = mailbox w ++ ms →
  Forall (λ m, callable_ok w' (target m) (work m)) ms →
  run_queue w' = run_queue w ++ qs →
  Forall (λ e, owned_by w' e.1 e.2) qs →
  graveyard w' = graveyard w ++ bs →
  Forall buried_at_home bs →
  affine w'.
Proof.
  intros [Hh Hm Hq Hg] Hl Hh' Em Hms Eq Hqs Eg Hbs.
  split; [done|..].
  - rewrite Em. apply Forall_app. split; [|done].
    eapply Forall_impl; [exact Hm|]. cbn. eauto using callable_ok_later.
  - rewrite Eq. apply Forall_app. split; [|done].
    eapply Forall_impl; [exact Hq|]. cbn. eauto using owned_by_later.
  - rewrite Eg. apply Forall_app. by split.
Qed.

Lemma keeps_affine_ret {A} P (a : A) : keeps_affine P (mret a).
Proof. intros w r w' Ha _ [= _ <-]. eauto using later_than_refl. Qed.

Lemma keeps_affine_weaken {A} (P Q : world → Prop) (m : M A) :
  (∀ w, affine w → P w → Q w) → keeps_affine Q m → keeps_affine P m.
Proof. intros HPQ Hm w r w' Ha HP. apply Hm; auto. Qed.

Lemma keeps_affine_bind {A B} P (m : M A) (k : A → M B) :
  stable P →
  keeps_affine P m → (∀ a, keeps_affine P (k a)) →
  keeps_affine P (m ≫= k).
Proof.
  intros HP Hm Hk w r w' Ha Hw. unfold mbind, M_bind.
  destruct (m w) as [[a|f] w1] eqn:Hmw.
  - destruct (Hm w _ _ Ha Hw Hmw) as [Ha1 Hl1]. intros Hkw.
    destruct (Hk a w1 r w' Ha1 (HP _ _ Hw Hl1) Hkw) as [Ha2 Hl2].
    eauto using later_than_trans.
  - intros [= <- <-]. eauto.
Qed.

Lemma keeps_affine_deref_bind {B} P this (k : rust_task → M B) :
  (∀ t, keeps_affine (λ w, P w ∧ heap w !! this = Some t) (k t)) →
  keeps_affine P (deref this ≫= k).
Proof.
  intros Hk w r w' Ha Hw. unfold mbind, M_bind, deref.
  destruct (heap w !! this) as [t|] eqn:H.
  - by apply Hk.
  - intros [= <- <-]. eauto using later_than_refl.
Qed.

Lemma keeps_affine_assert_bind {B} P b (k : M B) :
  (b = true → keeps_affine P k) →
  keeps_affine P (assert b ≫= λ _, k).
Proof.
  intros Hk w r w' Ha Hw. unfold mbind, M_bind, assert.
  destruct b.
  - by apply Hk.
  - intros [= <- <-]. eauto using later_than_refl.
Qed.

Lemma keeps_affine_update this f :
  (∀ t, origin (f t) = origin t) →
  keeps_affine (λ _, True) (update this f).
Proof.
  intros Hf w r w' Ha _. unfold update.
  destruct (heap w !! this) as [t|] eqn:H; intros [= <- <-];
    [|eauto using later_than_refl].
  assert (Hl : later_than w (with_heap (<[this := f t]> (heap w)) w)).
  { split; [done|]. intros p t' _. cbn.
    rewrite lookup_insert_Some. intros [[<- <-]|[_ Hp]]; eauto. }
  split; [|done].
  apply (affine_later w _ [] [] []); rewrite ?app_nil_r; try done.
  intros p t'. cbn. rewrite lookup_insert_Some.
  intros [[<- _]|[_ Hp]]; eapply affine_heap; eauto.
Qed.

Lemma keeps_affine_schedule th this :
  keeps_affine (λ w, owned_by w th this) (schedule th this).
Proof.
  intros w r w' Ha Hw [= _ <-].
  assert (Hl : later_than w (enqueued th this w))
    by by apply later_than_same_heap.
  split; [|done].
  apply (affine_later w _ [] [(th, this)] []); rewrite ?app_nil_r; try done.
  - apply Ha.
  - apply Forall_singleton. by apply (owned_by_later w).
Qed.

Lemma keeps_affine_post m :
  keeps_affine (λ w, callable_ok w (target m) (work m)) (post m).
Proof.
  intros w r w' Ha Hw [= _ <-].
  set (w' := {| heap := heap w |}).
  assert (Hl : later_than w w') by by apply later_than_same_heap.
  split; [|done].
  apply (affine_later w _ [m] [] []); rewrite ?app_nil_r; try done.
  - apply Ha.
  - apply Forall_singleton. by apply (callable_ok_later w).
Qed.

Lemma keeps_affine_delete_task th this :
  keeps_affine (λ w, owned_by w th this) (delete_task th this).
Proof.
  intros w r w' Ha [Hp Ho]. unfold delete_task.
  destruct (heap w !! this) as [t|] eqn:H; intros [= <- <-];
    [|eauto using later_than_refl].
  set (w' := entombed th this t w).
  assert (Hl : later_than w w').
  { split; [done|]. intros p t' _. cbn.
    rewrite lookup_delete_Some. intros [_ Hl]. eauto. }
  split; [|done].
  apply (affine_later w _ [] [] [Burial th this t]);
    rewrite ?app_nil_r; try done.
  - intros p t'. cbn. rewrite lookup_delete_Some.
    intros [_ Hl']. eapply affine_heap; eauto.
  - apply Forall_singleton. unfold buried_at_home. cbn. by apply Ho.
Qed.

Lemma keeps_affine_log_poll th this fut :
  keeps_affine (λ _, True) (log_poll th this fut).
Proof.
  intros w r w' Ha _ [= _ <-].
  set (w' := {| heap := heap w |}).
  assert (Hl : later_than w w') by by apply later_than_same_heap.
  split; [|done].
  apply (affine_later w _ [] [] []); rewrite ?app_nil_r; try done.
  apply Ha.
Qed.

Create HintDb affine.
Local Hint Resolve stable_True stable_owned_by : affine.
Local Hint Resolve keeps_affine_ret : affine.

Lemma keeps_affine_anywhere {A} P (m : M A) :
  keeps_affine (λ _, True) m → keeps_affine P m.
Proof. by apply keeps_affine_weaken. Qed.

Lemma keeps_affine_set_sched_state P this s :
  keeps_affine P (update this (set_sched_state s)).
Proof. apply keeps_affine_anywhere. by apply keeps_affine_update. Qed.

Lemma keeps_affine_fetch_add P this n : keeps_affine P (fetch_add this n).
Proof.
  apply keeps_affine_anywhere. unfold fetch_add.
  apply keeps_affine_deref_bind. intros t. apply keeps_affine_anywhere.
  apply keeps_affine_bind; auto with affine.
  by apply keeps_affine_update.
Qed.

Lemma keeps_affine_fetch_sub P this n : keeps_affine P (fetch_sub this n).
Proof.
  apply keeps_affine_anywhere. unfold fetch_sub.
  apply keeps_affine_deref_bind. intros t. apply keeps_affine_anywhere.
  apply keeps_affine_bind; auto with affine.
  by apply keeps_affine_update.
Qed.

Lemma keeps_affine_do_wake th this :
  keeps_affine (λ w, owned_by w th this) (do_wake th this).
Proof.
  unfold do_wake. apply keeps_affine_deref_bind. intros t.
  apply (keeps_affine_weaken _ (λ w, owned_by w th this)); [tauto|].
  apply keeps_affine_assert_bind. intros _.
  destruct (_sched_state t);
    auto using keeps_affine_set_sched_state with affine.
  apply keeps_affine_bind; auto with affine.
  - apply keeps_affine_schedule.
  - intros _. apply keeps_affine_set_sched_state.
Qed.

Lemma keeps_affine_dec_ref_local th this :
  keeps_affine (λ w, owned_by w th this) (dec_ref_local th this).
Proof.
  unfold dec_ref_local. apply keeps_affine_bind; auto with affine.
  - apply keeps_affine_fetch_sub.
  - intros old. case_bool_decide; auto with affine.
    apply keeps_affine_delete_task.
Qed.

Lemma keeps_affine_wake_lambda th this :
  keeps_affine (λ w, owned_by w th this) (wake_lambda th this).
Proof.
  unfold wake_lambda. apply keeps_affine_bind; auto with affine.
  - apply keeps_affine_do_wake.
  - intros _. apply keeps_affine_dec_ref_local.
Qed.

(** The two closures the task ever relays are about the task itself, so
    whatever thread relays them, they end up addressed to the origin. *)
Lemma keeps_affine_call_on_origin_thread P th this f :
  f = delete_this this ∨ f = wake_and_release this →
  keeps_affine P (call_on_origin_thread th this f).
Proof.
  intros Hf. apply keeps_affine_anywhere. unfold call_on_origin_thread.
  apply keeps_affine_deref_bind. intros t.
  assert (Hok : ∀ w, affine w → True ∧ heap w !! this = Some t →
                     callable_ok w (origin t) f).
  { intros w Ha [_ H].
    assert (owned_by w (origin t) this).
    { split; [by eapply affine_heap|]. intros t'. by rewrite H; intros [= <-]. }
    by destruct Hf as [-> | ->]. }
  case_bool_decide as He.
  - eapply keeps_affine_weaken;
      [|apply (keeps_affine_post
                 (Message alien_run_on (origin t) f))].
    exact Hok.
  - eapply keeps_affine_weaken;
      [|apply (keeps_affine_post
                 (Message smp_submit_to
                    (Thread (engine th) (_origin_shard t)) f))].
    cbn. rewrite He. exact Hok.
Qed.

Lemma keeps_affine_inc_ref P this : keeps_affine P (inc_ref this).
Proof.
  apply keeps_affine_anywhere. unfold inc_ref.
  apply keeps_affine_bind; auto with affine. apply keeps_affine_fetch_add.
Qed.

Lemma keeps_affine_dec_ref P th this : keeps_affine P (dec_ref th this).
Proof.
  apply keeps_affine_anywhere. unfold dec_ref.
  apply keeps_affine_bind; auto with affine.
  - apply keeps_affine_fetch_sub.
  - intros old. case_bool_decide; auto with affine.
    apply keeps_affine_call_on_origin_thread. by left.
Qed.

Lemma keeps_affine_wake P th this : keeps_affine P (wake th this).
Proof. apply keeps_affine_call_on_origin_thread. by right. Qed.

Lemma owned_by_live w th this t :
  affine w → heap w !! this = Some t → th = origin t → owned_by w th this.
Proof.
  intros Ha H Hth. split; [by eapply affine_heap|].
  intros t'. rewrite H. by intros [= <-].
Qed.

Lemma keeps_affine_wake_by_ref P th this :
  keeps_affine P (wake_by_ref th this).
Proof.
  apply keeps_affine_anywhere. unfold wake_by_ref.
  apply keeps_affine_deref_bind. intros t.
  destruct (is_on_right_thread th t) eqn:Hth.
  - apply is_on_right_thread_origin in Hth.
    eapply keeps_affine_weaken; [|apply keeps_affine_do_wake].
    intros w Ha [_ H]. by eapply owned_by_live.
  - apply keeps_affine_anywhere.
    apply keeps_affine_bind; auto with affine.
    + apply keeps_affine_inc_ref.
    + intros _. apply keeps_affine_wake.
Qed.

Lemma keeps_affine_do_waker_call P th c :
  keeps_affine P (do_waker_call th c).
Proof.
  destruct c; cbn.
  - apply keeps_affine_inc_ref.
  - apply keeps_affine_wake.
  - apply keeps_affine_wake_by_ref.
  - apply keeps_affine_dec_ref.
Qed.

Lemma keeps_affine_do_waker_calls P th cs :
  keeps_affine P (do_waker_calls th cs).
Proof.
  apply keeps_affine_anywhere.
  induction cs as [|c cs IH]; cbn [do_waker_calls]; auto with affine.
  apply keeps_affine_bind; auto with affine.
  apply keeps_affine_do_waker_call.
Qed.

Lemma keeps_affine_invoke_poll rust P th pf this fut :
  keeps_affine P (invoke_poll rust th pf this fut).
Proof.
  apply keeps_affine_anywhere. intros w r w' Ha HT. unfold invoke_poll.
  destruct (rust pf this fut w) as [cs r0].
  assert (Hk : keeps_affine (λ _, True)
                 (log_poll th this fut;; do_waker_calls th cs;; mret r0)).
  { apply keeps_affine_bind; auto with affine.
    - apply keeps_affine_log_poll.
    - intros _. apply keeps_affine_bind; auto with affine.
      apply keeps_affine_do_waker_calls. }
  by apply Hk.
Qed.

Lemma keeps_affine_run_and_dispose rust P th this :
  keeps_affine P (run_and_dispose rust th this).
Proof.
  apply keeps_affine_anywhere. unfold run_and_dispose.
  apply keeps_affine_deref_bind. intros t.
  apply keeps_affine_assert_bind. intros Hth.
  apply is_on_right_thread_origin in Hth.
  apply (keeps_affine_weaken _ (λ w, owned_by w th this)).
  { intros w Ha [_ H]. by eapply owned_by_live. }
  apply keeps_affine_assert_bind. intros _.
  apply keeps_affine_bind; auto with affine.
  { apply keeps_affine_set_sched_state. }
  intros _. apply keeps_affine_bind; auto with affine.
  { apply keeps_affine_invoke_poll. }
  intros r. cbn zeta. apply keeps_affine_bind; auto with affine.
  { case_bool_decide; auto with affine.
    apply keeps_affine_bind; auto with affine.
    - apply keeps_affine_set_sched_state.
    - intros _. apply keeps_affine_dec_ref_local. }
  intros _. apply keeps_affine_deref_bind. intros t'.
  apply (keeps_affine_weaken _ (λ w, owned_by w th this)); [tauto|].
  case_bool_decide.
  - apply keeps_affine_bind; auto with affine.
    + apply keeps_affine_schedule.
    + intros _. apply keeps_affine_set_sched_state.
  - apply keeps_affine_set_sched_state.
Qed.

Lemma keeps_affine_new_rust_task P th pf fut :
  keeps_affine P (new_rust_task th pf fut).
Proof.
  intros w r w' Ha _.
  unfold new_rust_task, mbind, M_bind, mret, M_ret, assert. cbn.
  set (w1 := {| heap := _ |}).
  assert (Hl : later_than w w1).
  { split; [cbn; lia|]. intros p t' Hp. cbn.
    rewrite lookup_insert_Some. intros [[<- _]|[_ H]]; [lia|eauto]. }
  assert (affine w1).
  { apply (affine_later w _ [] [] []); rewrite ?app_nil_r; try done.
    intros p t'. cbn. rewrite lookup_insert_Some.
    intros [[<- _]|[_ H]]; [lia|]. apply (affine_heap _ Ha) in H. lia. }
  by case_bool_decide; intros [= <- <-].
Qed.

Lemma keeps_affine_run_callable rust th f :
  keeps_affine (λ w, callable_ok w th f) (run_callable rust th f).
Proof.
  destruct f as [this|this|pf fut]; cbn.
  - apply keeps_affine_delete_task.
  - apply keeps_affine_wake_lambda.
  - apply keeps_affine_bind; auto with affine.
    + apply keeps_affine_new_rust_task.
    + intros this. apply keeps_affine_run_and_dispose.
Qed.

Lemma keeps_affine_step rust a : keeps_affine (λ _, True) (step rust a).
Proof.
  destruct a as [th c|th pf fut|th pf fut shard|i|i]; cbn [step].
  - apply keeps_affine_do_waker_call.
  - apply keeps_affine_bind; auto with affine.
    + apply keeps_affine_new_rust_task.
    + intros this. apply keeps_affine_run_and_dispose.
  - eapply keeps_affine_weaken; [|apply keeps_affine_post]. done.
  - intros w r w' Ha _. unfold mbind, M_bind, take_message.
    set (w1 := {| heap := heap w |}).
    assert (Hl : later_than w w1) by by apply later_than_same_heap.
    assert (Ha1 : affine w1).
    { destruct Ha as [Hh Hm Hq Hg]. split; try done.
      cbn. by apply Forall_delete. }
    destruct (mailbox w !! i) as [m|] eqn:Hm.
    + intros Hrun.
      assert (Hok : callable_ok w1 (target m) (work m)).
      { apply (callable_ok_later w); [|done].
        by apply (Forall_lookup_1 _ _ _ _ (affine_mailbox _ Ha) Hm). }
      destruct (keeps_affine_run_callable rust (target m) (work m) w1 r w'
                  Ha1 Hok Hrun) as [Ha' Hl'].
      eauto using later_than_trans.
    + intros [= <- <-]. done.
  - intros w r w' Ha _. unfold mbind, M_bind, take_queued.
    set (w1 := {| heap := heap w |}).
    assert (Hl : later_than w w1) by by apply later_than_same_heap.
    assert (Ha1 : affine w1).
    { destruct Ha as [Hh Hm Hq Hg]. split; try done.
      cbn. by apply Forall_delete. }
    destruct (run_queue w !! i) as [[th this]|] eqn:Hq.
    + intros Hrun.
      destruct (keeps_affine_run_and_dispose rust (λ _, True) th this
                  w1 r w' Ha1 I Hrun) as [Ha' Hl'].
      eauto using later_than_trans.
    + intros [= <- <-]. done.
Qed.

Lemma keeps_affine_steps rust acts :
  keeps_affine (λ _, True) (steps rust acts).
Proof.
  induction acts as [|a acts IH]; cbn [steps]; auto with affine.
  apply keeps_affine_bind; auto with affine. apply keeps_affine_step.
Qed.

Lemma affine_no_tasks : affine no_tasks.
Proof. split; cbn; by try constructor. Qed.


(** ** The run contract and the entry points on concrete inputs *)

(** C1: [seastar_rs_spawn] on a future whose first poll clones one waker
    and reports completion.  The run releases one reference locally (the
    count, 2 after the clone, is 1; nothing is relayed, nothing is
    destroyed), but the state it leaves is idle, not done: the assignment
    of done is overwritten at the end of the run.  A later in-place wake
    through the surviving waker therefore queues the finished task again,
    and the scheduler polls the finished future a second time. *)
Theorem completed_run_leaves_idle_not_done :
  let spawned := seastar_rs_spawn poll_ready_keeping_waker owner 7 9 no_tasks in
  let w1 := snd spawned in
  let w2 := snd (seastar_rs_waker_wake_by_ref owner 1 w1) in
  let w3 := snd (step poll_ready_keeping_waker (act_run 0) w2) in
  fst spawned = Done () ∧
  heap w1 !! 1 = Some (RustTask 1 4096 0%N idle 7 9) ∧
  polls w1 = [(owner, 1, 9)] ∧
  mailbox w1 = [] ∧ graveyard w1 = [] ∧
  sched_state_of 1 w1 ≠ Some done ∧
  sched_state_of 1 w2 = Some scheduled ∧
  run_queue w2 = [(owner, 1)] ∧
  polls w3 = [(owner, 1, 9); (owner, 1, 9)].
Proof. by vm_compute. Qed.

(** The same run on a task nobody else refers to (count 1) destroys the
    task and then writes its scheduling state. *)
Example completion_without_wakers_writes_freed_task :
  fst (seastar_rs_spawn poll_ready owner 7 9 no_tasks) = Fault use_after_free
  ∧ graveyard (snd (seastar_rs_spawn poll_ready owner 7 9 no_tasks))
    = [Burial owner 1 (RustTask 0 4096 0%N done 7 9)].
Proof. by vm_compute. Qed.

(** C5: a task is destroyed while a waker still refers to it.  A future
    whose poll clones one waker and reports completion is spawned; the
    run releases the task's own reference but leaves the task idle, so a
    [wake_by_ref] through the waker queues it again and the second run,
    which clones a second waker, releases once more.  Two wakers are then
    outstanding and none has been disposed of or consumed, yet the count
    is 1.  Disposing of one of them, from a thread outside the engine,
    takes the count to zero and the relayed deletion destroys the task on
    its owning worker; every later call through the other waker reaches a
    destroyed task. *)
Theorem task_destroyed_under_outstanding_waker :
  let rust := poll_ready_keeping_waker in
  let w1 := snd (steps rust [act_spawn owner 7 9;
                             act_waker owner (call_waker_wake_by_ref 1);
                             act_run 0%nat] no_tasks) in
  let disposed := steps rust [act_waker outsider (call_waker_dispose 1);
                              act_deliver 0%nat] w1 in
  let w2 := snd disposed in
  (∀ w, rust 7 1 9 w = ([call_waker_clone 1], 1)) ∧
  polls w1 = [(owner, 1, 9); (owner, 1, 9)] ∧
  heap w1 !! 1 = Some (RustTask 1 4096 0%N idle 7 9) ∧
  mailbox w1 = [] ∧ run_queue w1 = [] ∧ graveyard w1 = [] ∧
  fst disposed = Done () ∧
  heap w2 !! 1 = None ∧
  graveyard w2 = [Burial owner 1 (RustTask 0 4096 0%N idle 7 9)] ∧
  seastar_rs_waker_clone owner 1 w2 = (Fault use_after_free, w2) ∧
  seastar_rs_waker_wake_by_ref owner 1 w2 = (Fault use_after_free, w2) ∧
  seastar_rs_waker_wake outsider 1 w2 = (Fault use_after_free, w2) ∧
  seastar_rs_waker_dispose outsider 1 w2 = (Fault use_after_free, w2).
Proof. split; [done|]. by vm_compute. Qed.

(** C2: what [seastar_rs_submit_to] does.  It takes a poll function, a
    future handle and a shard, submits one closure to that shard through
    [smp::submit_to], and the closure is [seastar_rs_spawn] on the handle
    it was given: no spawner function is called, the task polls the very
    handle passed in, once, on the target shard. *)
Theorem submit_to_spawns_from_the_given_handle :
  (∀ th poll_fn rust_future shard w,
     seastar_rs_submit_to th poll_fn rust_future shard w
     = post (Message smp_submit_to (Thread (engine th) shard)
               (spawn_and_run poll_fn rust_future)) w) ∧
  (∀ rust tgt poll_fn rust_future w,
     run_callable rust tgt (spawn_and_run poll_fn rust_future) w
     = seastar_rs_spawn rust tgt poll_fn rust_future w) ∧
  (let w := snd (steps (poll_pending_waking 0)
                   [act_submit_to owner 7 9 1%N; act_deliver 0%nat]
                   no_tasks) in
   polls w = [(sibling, 1, 9)] ∧
   heap w !! 1 = Some (RustTask 1 4096 1%N idle 7 9) ∧
   mailbox w = []).
Proof. split; [done|]. split; [done|]. by vm_compute. Qed.

(** ** The theorems at concrete inputs *)

Lemma wake_transition_and_single_enqueue_witness :
  ∃ w',
    process_wakes owner 100
      [consuming_wake; wake_by_reference; consuming_wake]
      (one_task 100 (sample_task 3 idle)) = (Done (), w') ∧
    sched_state_of 100 w' = Some scheduled ∧
    run_queue w' = [(owner, 100)].
Proof.
  apply (proj2 (wake_transition_and_single_enqueue owner 100
                  (sample_task 3 idle) (one_task 100 (sample_task 3 idle))
                  eq_refl eq_refl)).
  - reflexivity.
  - discriminate.
  - vm_compute. split; reflexivity.
Defined.


Lemma ref_count_accounting_witness :
  ∃ w',
    seastar_rs_waker_dispose outsider 100
      (one_task 100 (sample_task 1 idle)) = (Done (), w') ∧
    ref_count_of 100 w' = Some (1 - 1) ∧
    graveyard w' = [] ∧
    ((1 - 1 = 0 ∧
      ∃ ch, mailbox w' = [Message ch owner (delete_this 100)]) ∨
     (1 - 1 ≠ 0 ∧ mailbox w' = [])).
Proof.
  apply (ref_count_accounting poll_ready outsider 100 (sample_task 1 idle)
           (one_task 100 (sample_task 1 idle)) eq_refl).
  vm_compute. split; reflexivity.
Defined.


Lemma wake_by_ref_net_zero_witness :
  ∃ w1 ch,
    wake_by_ref outsider 100 (one_task 100 (sample_task 2 idle))
      = (Done (), w1) ∧
    ref_count_of 100 w1 = Some (2 + 1) ∧
    sched_state_of 100 w1 = Some idle ∧
    mailbox w1 = [Message ch owner (wake_and_release 100)] ∧
    ∃ w2,
      run_callable poll_ready owner (wake_and_release 100) w1
        = (Done (), w2) ∧
      ref_count_of 100 w2 = Some 2 ∧
      graveyard w2 = [].
Proof.
  apply (wake_by_ref_net_zero poll_ready outsider 100 (sample_task 2 idle)
           (one_task 100 (sample_task 2 idle)) eq_refl).
  - vm_compute. split; reflexivity.
  - reflexivity.
Defined.

(** ** Who calls the poll function *)

Lemma preserves_ret {A B} (obs : world → B) (a : A) : preserves obs (mret a).
Proof. by intros w r w' [= _ <-]. Qed.

Lemma preserves_bind {A B C} (obs : world → C) (m : M A) (k : A → M B) :
  preserves obs m → (∀ a, preserves obs (k a)) → preserves obs (m ≫= k).
Proof.
  intros Hm Hk w r w'. unfold mbind, M_bind.
  destruct (m w) as [[a|f] w1] eqn:Hmw.
  - intros Hkw. rewrite (Hk _ _ _ _ Hkw). eauto.
  - intros [= _ <-]. eauto.
Qed.

Lemma preserves_deref {B} (obs : world → B) this : preserves obs (deref this).
Proof. intros w r w'. unfold deref. by destruct (heap w !! this); intros [= _ <-]. Qed.

Lemma preserves_assert {B} (obs : world → B) b : preserves obs (assert b).
Proof. intros w r w'. unfold assert. by destruct b; intros [= _ <-]. Qed.

Lemma preserves_polls_update this f : preserves polls (update this f).
Proof. intros w r w'. unfold update. by destruct (heap w !! this); intros [= _ <-]. Qed.

Lemma preserves_polls_delete_task th this :
  preserves polls (delete_task th this).
Proof.
  intros w r w'. unfold delete_task.
  by destruct (heap w !! this); intros [= _ <-].
Qed.

Lemma preserves_polls_schedule th this : preserves polls (schedule th this).
Proof. by intros w r w' [= _ <-]. Qed.

Lemma preserves_polls_post m : preserves polls (post m).
Proof. by intros w r w' [= _ <-]. Qed.

Lemma preserves_polls_alien_run e shard f :
  preserves polls (alien_run e shard f).
Proof. apply preserves_polls_post. Qed.

Lemma preserves_polls_smp_submit th shard f :
  preserves polls (smp_submit th shard f).
Proof. apply preserves_polls_post. Qed.

Create HintDb polls.
Local Hint Resolve preserves_polls_alien_run preserves_polls_smp_submit
  : polls.
Local Hint Resolve preserves_ret preserves_deref preserves_assert
  preserves_polls_update preserves_polls_delete_task preserves_polls_schedule
  preserves_polls_post : polls.

Ltac polls_kept :=
  repeat first
    [ progress auto with polls
    | apply preserves_bind
    | match goal with
      | |- ∀ _, _ => intro
      | |- preserves _ (match ?x with _ => _ end) => destruct x
      | |- preserves _ (if ?x then _ else _) => destruct x
      end ].

Lemma preserves_polls_fetch_add this n : preserves polls (fetch_add this n).
Proof. unfold fetch_add. polls_kept. Qed.

Lemma preserves_polls_fetch_sub this n : preserves polls (fetch_sub this n).
Proof. unfold fetch_sub. polls_kept. Qed.

Local Hint Resolve preserves_polls_fetch_add preserves_polls_fetch_sub : polls.

Lemma preserves_polls_do_wake th this : preserves polls (do_wake th this).
Proof. unfold do_wake. polls_kept. Qed.

Lemma preserves_polls_dec_ref_local th this :
  preserves polls (dec_ref_local th this).
Proof. unfold dec_ref_local. polls_kept. Qed.

Lemma preserves_polls_call_on_origin_thread th this f :
  preserves polls (call_on_origin_thread th this f).
Proof. unfold call_on_origin_thread. polls_kept. Qed.

Local Hint Resolve preserves_polls_do_wake preserves_polls_dec_ref_local
  preserves_polls_call_on_origin_thread : polls.

Lemma preserves_polls_wake_lambda th this :
  preserves polls (wake_lambda th this).
Proof. unfold wake_lambda. polls_kept. Qed.

Lemma preserves_polls_do_waker_call th c :
  preserves polls (do_waker_call th c).
Proof.
  destruct c; cbn;
    unfold seastar_rs_waker_clone, seastar_rs_waker_wake,
      seastar_rs_waker_wake_by_ref, seastar_rs_waker_dispose,
      inc_ref, wake, wake_by_ref, dec_ref; polls_kept.
Qed.

Lemma preserves_polls_do_waker_calls th cs :
  preserves polls (do_waker_calls th cs).
Proof.
  induction cs as [|c cs IH]; cbn [do_waker_calls]; polls_kept.
  apply preserves_polls_do_waker_call.
Qed.

(** X1: no waker function, called from any thread on any address, and
    neither of the closures that [wake] and [dec_ref] relay, ever calls a
    poll function: polling happens in [run_and_dispose] only. *)
Theorem wakers_never_poll :
  (∀ th c w, polls (snd (do_waker_call th c w)) = polls w) ∧
  (∀ rust th this w,
     polls (snd (run_callable rust th (wake_and_release this) w)) = polls w ∧
     polls (snd (run_callable rust th (delete_this this) w)) = polls w).
Proof.
  split.
  - intros th c w. destruct (do_waker_call th c w) as [r w'] eqn:H.
    by apply (preserves_polls_do_waker_call th c w r w').
  - intros rust th this w. split; cbn [run_callable].
    + destruct (wake_lambda th this w) as [r w'] eqn:H.
      by apply (preserves_polls_wake_lambda th this w r w').
    + destruct (delete_task th this w) as [r w'] eqn:H.
      by apply (preserves_polls_delete_task th this w r w').
Qed.

Lemma invoke_poll_logs rust th pf this fut w r w' :
  invoke_poll rust th pf this fut w = (r, w') →
  polls w' = polls w ++ [(th, this, fut)].
Proof.
  unfold invoke_poll. destruct (rust pf this fut w) as [cs r0].
  unfold mbind at 1, M_bind at 1. cbn [log_poll].
  set (w1 := {| heap := heap w |}). intros Hrest.
  assert (Hk : preserves polls (do_waker_calls th cs;; mret r0)).
  { apply preserves_bind; [apply preserves_polls_do_waker_calls|].
    intros _. apply preserves_ret. }
  by rewrite (Hk _ _ _ Hrest).
Qed.

Lemma polls_after_run rust th this w :
  polls (snd (run_and_dispose rust th this w)) =
    polls w ++
      match heap w !! this with
      | Some t =>
          if is_on_right_thread th t && bool_decide (_sched_state t ≠ done)
          then [(th, this, _rust_future t)]
          else []
      | None => []
      end.
Proof.
  destruct (heap w !! this) as [t|] eqn:H.
  - destruct (is_on_right_thread th t) eqn:Hth; cbn [andb].
    + case_bool_decide as Hst.
      * rewrite (run_and_dispose_prologue rust th this t w H) by
          (done || by apply is_on_right_thread_origin).
        unfold mbind at 1, M_bind at 1.
        destruct (invoke_poll _ _ _ _ _ _) as [[r|f] w2] eqn:Hpoll;
          apply invoke_poll_logs in Hpoll; cbn in Hpoll; [|done].
        match goal with |- polls (snd (?k ?w)) = _ =>
          assert (Hk : preserves polls k) by polls_kept;
          destruct (k w) as [r' w'] eqn:Hrun end.
        cbn. by rewrite (Hk _ _ _ Hrun).
      * unfold run_and_dispose.
        rewrite (bind_Done _ _ _ _ _ (deref_live _ _ _ H)). rewrite Hth.
        rewrite bool_decide_false by (intros Hn; by apply Hn).
        cbn. by rewrite app_nil_r.
    + unfold run_and_dispose.
      rewrite (bind_Done _ _ _ _ _ (deref_live _ _ _ H)). rewrite Hth.
      cbn. by rewrite app_nil_r.
  - unfold run_and_dispose, mbind, M_bind, deref. rewrite H. cbn.
    by rewrite app_nil_r.
Qed.

(** X2: [run_and_dispose] calls the poll function exactly once, with the
    task's own address and future handle, when the task is live, the
    caller is its origin thread and the task is not done; in every other
    case it stops before polling.  What the poll function does, and how the
    run ends, makes no difference. *)
Theorem run_polls_exactly_once rust th this w :
  polls (snd (run_and_dispose rust th this w)) =
    polls w ++
      match heap w !! this with
      | Some t =>
          if is_on_right_thread th t && bool_decide (_sched_state t ≠ done)
          then [(th, this, _rust_future t)]
          else []
      | None => []
      end.
Proof. apply polls_after_run. Qed.

(** X3: [seastar_rs_spawn] on a reactor thread polls the given future
    handle exactly once, at once, on the calling thread, as the task at the
    address just allocated; on a thread that has no reactor it stops at the
    constructor's assertion and never polls. *)
Theorem spawn_polls_once rust th pf fut w :
  polls (snd (seastar_rs_spawn rust th pf fut w)) =
    polls w ++ (if bool_decide (engine th ≠ 0) then [(th, brk w, fut)] else [])
  ∧ (engine th = 0 →
     fst (seastar_rs_spawn rust th pf fut w) = Fault assertion_failed).
Proof.
  unfold seastar_rs_spawn, new_rust_task.
  unfold mbind at 1 3, M_bind at 1 3. unfold mbind at 1 2, M_bind at 1 2.
  unfold assert. case_bool_decide as He; cbn [mret M_ret].
  - split; [|done].
    rewrite polls_after_run. cbn. rewrite lookup_insert_eq.
    unfold is_on_right_thread. cbn. by rewrite !bool_decide_true by done.
  - split; [cbn; by rewrite app_nil_r|done].
Qed.

(** ** Round trips and relays *)

Lemma with_heap_same w : with_heap (heap w) w = w.
Proof. by destruct w. Qed.

Lemma set_ref_count_same c s t :
  c = _ref_count t → s = _sched_state t →
  set_ref_count c (set_sched_state s t) = t.
Proof. intros -> ->. by destruct t. Qed.

Lemma uint64_up_down c :
  0 < c < 2 ^ 64 →
  uint64_wrap (c + 1) ≠ 1 ∧ uint64_wrap (uint64_wrap (c + 1) - 1) = c.
Proof.
  intros Hc. unfold uint64_wrap.
  destruct (decide (c = 2 ^ 64 - 1)) as [->|Hne].
  - by vm_compute.
  - rewrite (Z.mod_small (c + 1)) by lia.
    split; [lia|]. rewrite Z.mod_small by lia. lia.
Qed.

(** X4: cloning a waker and then disposing of one, from any two threads,
    leaves the whole world exactly as it was: the count is back, nothing
    is relayed, nothing is destroyed. *)
Theorem clone_then_dispose_restores th1 th2 this t w :
  heap w !! this = Some t →
  0 < _ref_count t < 2 ^ 64 →
  (seastar_rs_waker_clone th1 this;; seastar_rs_waker_dispose th2 this) w
  = (Done (), w).
Proof.
  intros H Hc. destruct (uint64_up_down _ Hc) as [Hne Hback].
  unfold seastar_rs_waker_clone, seastar_rs_waker_dispose, inc_ref, dec_ref.
  rewrite (bind_Done _ _ _ _ _
             (bind_Done _ _ _ _ _ (fetch_add_live _ _ _ _ H))).
  cbn [mret M_ret].
  erewrite bind_Done by (apply fetch_sub_live; cbn; apply lookup_insert_eq).
  cbn [_ref_count set_ref_count]. rewrite bool_decide_false by done.
  cbn. rewrite insert_insert_eq, Hback.
  assert (set_ref_count (_ref_count t)
            (set_ref_count (uint64_wrap (_ref_count t + 1)) t) = t) as ->
    by by destruct t.
  rewrite (insert_id (heap w) this t H).
  unfold mret, M_ret. f_equal. by destruct w.
Qed.

Lemma delete_last {A} (l : list A) (x : A) :
  base.delete (length l) (l ++ [x]) = l.
Proof. induction l as [|y l IH]; [done|]. cbn. f_equal. exact IH. Qed.

Lemma take_last_message m w :
  take_message (length (mailbox w ++ [m]) - 1)
    {| heap := heap w; brk := brk w; run_queue := run_queue w;
       mailbox := mailbox w ++ [m]; graveyard := graveyard w;
       polls := polls w |}
  = (Done (Some m), w).
Proof.
  unfold take_message. cbn.
  replace (length (mailbox w ++ [m]) - 1)%nat with (length (mailbox w))
    by (rewrite length_app; cbn; lia).
  rewrite lookup_app_r, Nat.sub_diag by done. cbn. f_equal.
  rewrite delete_last. by destruct w.
Qed.

Lemma post_then_deliver_last rust m w :
  (post m;; deliver_last rust) w = run_callable rust (target m) (work m) w.
Proof.
  unfold mbind at 1, M_bind at 1. cbn [post].
  unfold deliver_last. cbn [step mailbox].
  unfold mbind, M_bind. by rewrite take_last_message.
Qed.

Lemma call_then_deliver_last rust th this f t w :
  heap w !! this = Some t →
  (call_on_origin_thread th this f;; deliver_last rust) w
  = run_callable rust (origin t) f w.
Proof.
  intros H.
  assert (call_on_origin_thread th this f w =
            post (Message (if bool_decide (engine th ≠ _origin_engine t)
                           then alien_run_on else smp_submit_to)
                          (origin t) f) w) as Hpost.
  { rewrite (call_on_origin_thread_live _ _ _ _ _ H).
    case_bool_decide as He; [done|].
    unfold smp_submit, origin. by rewrite He. }
  rewrite <- (post_then_deliver_last rust
                (Message (if bool_decide (engine th ≠ _origin_engine t)
                          then alien_run_on else smp_submit_to)
                         (origin t) f)).
  unfold mbind, M_bind. by rewrite Hpost.
Qed.

(** X5: a [wake_by_ref] made on any thread other than the owning worker,
    followed by the reactor running the closure it submitted, leaves
    exactly the world that [wake_by_ref] on the owning worker leaves:
    same scheduling state, same run queue, same reference count, same
    mailbox. *)
Theorem relayed_wake_by_ref_is_local rust th this t w :
  heap w !! this = Some t →
  is_on_right_thread th t = false →
  0 < _ref_count t < 2 ^ 64 →
  (wake_by_ref th this;; deliver_last rust) w
  = wake_by_ref (origin t) this w.
Proof.
  intros H Hth Hc. destruct (uint64_up_down _ Hc) as [Hne Hback].
  rewrite (wake_by_ref_on_origin (origin t) this t w H eq_refl).
  rewrite (do_wake_live (origin t) this t w H eq_refl).
  set (t1 := set_ref_count (uint64_wrap (_ref_count t + 1)) t).
  set (w0 := with_heap (<[this := t1]> (heap w)) w).
  assert (H0 : heap w0 !! this = Some t1) by apply lookup_insert_eq.
  assert ((wake_by_ref th this;; deliver_last rust) w =
          (call_on_origin_thread th this (wake_and_release this);;
           deliver_last rust) w0) as ->.
  { unfold wake_by_ref. unfold mbind at 1, M_bind at 1.
    rewrite (bind_Done _ _ _ _ _ (deref_live _ _ _ H)). rewrite Hth.
    unfold inc_ref.
    rewrite (bind_Done _ _ _ _ _
               (bind_Done _ _ _ _ _ (fetch_add_live _ _ _ _ H))).
    done. }
  rewrite (call_then_deliver_last rust th this _ t1 w0 H0).
  cbn [run_callable]. unfold wake_lambda.
  rewrite (bind_Done _ _ _ _ _
             (do_wake_live (origin t1) this t1 w0 H0 eq_refl)).
  assert (Hrec : ∀ s, released (set_sched_state s t1) = set_sched_state s t).
  { intros s. unfold released. cbn. rewrite Hback. by destruct t. }
  assert (Hrec' : released t1 = t).
  { unfold released. cbn. rewrite Hback. by destruct t. }
  cbn [_sched_state t1 set_ref_count].
  destruct (_sched_state t) eqn:Hst.
  - erewrite dec_ref_local_live by (cbn; apply lookup_insert_eq).
    cbn [_ref_count set_sched_state t1 set_ref_count].
    rewrite bool_decide_false by done. rewrite Hrec.
    f_equal. unfold with_heap, enqueued, w0, with_heap. cbn.
    by rewrite !insert_insert_eq.
  - rewrite (dec_ref_local_live _ _ _ _ H0).
    cbn [_ref_count t1 set_ref_count]. rewrite bool_decide_false by done.
    rewrite Hrec'. f_equal. unfold with_heap, w0, with_heap. cbn.
    rewrite insert_insert_eq, (insert_id _ _ _ H). by destruct w.
  - erewrite dec_ref_local_live by (cbn; apply lookup_insert_eq).
    cbn [_ref_count set_sched_state t1 set_ref_count].
    rewrite bool_decide_false by done. rewrite Hrec.
    f_equal. unfold with_heap, w0, with_heap. cbn.
    by rewrite !insert_insert_eq.
  - rewrite (dec_ref_local_live _ _ _ _ H0).
    cbn [_ref_count t1 set_ref_count]. rewrite bool_decide_false by done.
    rewrite Hrec'. f_equal. unfold with_heap, w0, with_heap. cbn.
    rewrite insert_insert_eq, (insert_id _ _ _ H). by destruct w.
  - rewrite (dec_ref_local_live _ _ _ _ H0).
    cbn [_ref_count t1 set_ref_count]. rewrite bool_decide_false by done.
    rewrite Hrec'. f_equal. unfold with_heap, w0, with_heap. cbn.
    rewrite insert_insert_eq, (insert_id _ _ _ H). by destruct w.
Qed.

(** X6: the relays of [wake] and of a last-reference [dec_ref] do on the
    owning worker what the local operations do.  A consuming wake from any
    thread, once its closure has run, is [do_wake] followed by
    [dec_ref_local] on the owning worker; a disposal from any thread that
    does not reach zero is [dec_ref_local], and one that reaches zero is,
    once its closure has run, [dec_ref_local] on the owning worker: same
    world, the burial included. *)
Theorem relayed_release_is_local rust th this t w :
  heap w !! this = Some t →
  (wake th this;; deliver_last rust) w = wake_lambda (origin t) this w ∧
  (_ref_count t ≠ 1 →
   dec_ref th this w = dec_ref_local (origin t) this w) ∧
  (_ref_count t = 1 →
   (dec_ref th this;; deliver_last rust) w
   = dec_ref_local (origin t) this w).
Proof.
  intros H. split; [|split].
  - unfold wake. by rewrite (call_then_deliver_last rust th this _ t w H).
  - intros Hc. rewrite (dec_ref_local_live _ _ _ _ H).
    rewrite bool_decide_false by done.
    unfold dec_ref.
    rewrite (bind_Done _ _ _ _ _ (fetch_sub_live _ _ _ _ H)).
    by rewrite bool_decide_false by done.
  - intros Hc. rewrite (dec_ref_local_live _ _ _ _ H).
    rewrite bool_decide_true by done.
    set (w0 := with_heap (<[this := released t]> (heap w)) w).
    assert (H0 : heap w0 !! this = Some (released t))
      by apply lookup_insert_eq.
    assert ((dec_ref th this;; deliver_last rust) w =
            (call_on_origin_thread th this (delete_this this);;
             deliver_last rust) w0) as ->.
    { unfold dec_ref. unfold mbind at 1, M_bind at 1.
      rewrite (bind_Done _ _ _ _ _ (fetch_sub_live _ _ _ _ H)).
      by rewrite bool_decide_true by done. }
    rewrite (call_then_deliver_last rust th this _ _ w0 H0).
    cbn [run_callable]. by rewrite (delete_task_live _ _ _ _ H0).
Qed.

(** ** future_wrapper_base *)

Section WrapperFacts.

Import future_wrapper_base.
Context {future_type : Type}.
Implicit Types (s : @store future_type) (f : future_type).

Lemma store_wf_fresh s : store_wf s → cells s !! top s = None.
Proof.
  intros [_ Hs]. destruct (cells s !! top s) as [f|] eqn:H; [|done].
  apply Hs in H. lia.
Qed.

(** X7: wrapping a future and unwrapping it gives the same future back,
    frees its storage (the store holds what it held before) and leaves the
    wrapper empty: destroying the emptied wrapper frees nothing and
    unwrapping it a second time trips the assertion. *)
Theorem wrap_unwrap_round_trip s f :
  store_wf s →
  let '(a, s1) := construct f s in
  ∃ s2,
    unwrap a s1 = Done (f, {| _f := 0 |}, s2) ∧
    cells s2 = cells s ∧
    destroy {| _f := 0 |} s2 = Done s2 ∧
    unwrap {| _f := 0 |} s2 = Fault assertion_failed.
Proof.
  intros Hwf. pose proof (store_wf_fresh s Hwf) as Hfresh.
  destruct Hwf as [Htop _]. cbn.
  unfold unwrap, destroy, delete_future. cbn.
  rewrite bool_decide_false by lia. rewrite lookup_insert_eq.
  eexists. split; [done|]. cbn. by rewrite delete_insert_id.
Qed.

(** X8: a wrapper that is destroyed without having been unwrapped frees
    its future; the move constructor hands the future over: the source is
    left empty (destroying it frees nothing, unwrapping it trips the
    assertion), the target unwraps to the future the source held, and
    destroying both frees that future exactly once. *)
Theorem move_transfers_ownership (a : wrapper) s f :
  _f a ≠ 0 →
  cells s !! _f a = Some f →
  let '(b, a') := move_construct a in
  let freed := {| cells := base.delete (_f a) (cells s); top := top s |} in
  destroy a s = Done freed ∧
  destroy a' s = Done s ∧
  unwrap a' s = Fault assertion_failed ∧
  unwrap b s = Done (f, {| _f := 0 |}, freed) ∧
  destroy b s = Done freed ∧
  destroy a' freed = Done freed.
Proof.
  intros Hnz Hf. cbn. unfold destroy, unwrap, delete_future. cbn.
  rewrite !bool_decide_false by done. by rewrite Hf.
Qed.

End WrapperFacts.

(** ** Relations kept by every operation of a thread *)

Lemma keeps_ret R `{!Reflexive R} {A} P (a : A) : keeps R P (mret a).
Proof. intros w r w' _ _ [= _ <-]. reflexivity. Qed.

Lemma keeps_weaken R {A} (P Q : world → Prop) (m : M A) :
  (∀ w, affine w → P w → Q w) → keeps R Q m → keeps R P m.
Proof. intros HPQ Hm w r w' Ha HP. apply Hm; auto. Qed.

Lemma keeps_bind R `{!PreOrder R} {A B} P (m : M A) (k : A → M B) :
  stable P →
  keeps_affine P m → keeps R P m →
  (∀ a, keeps R P (k a)) →
  keeps R P (m ≫= k).
Proof.
  intros HP Hma Hm Hk w r w' Ha Hw. unfold mbind, M_bind.
  destruct (m w) as [[a|f] w1] eqn:Hmw.
  - destruct (Hma w _ _ Ha Hw Hmw) as [Ha1 Hl1]. intros Hkw.
    etrans; [by eapply Hm|]. eapply Hk; eauto.
  - intros [= <- <-]. by eapply Hm.
Qed.

Lemma keeps_deref_bind R `{!Reflexive R} {B} P this (k : rust_task → M B) :
  (∀ t, keeps R (λ w, P w ∧ heap w !! this = Some t) (k t)) →
  keeps R P (deref this ≫= k).
Proof.
  intros Hk w r w' Ha Hw. unfold mbind, M_bind, deref.
  destruct (heap w !! this) as [t|] eqn:H.
  - by apply Hk.
  - intros [= <- <-]. reflexivity.
Qed.

Lemma keeps_assert_bind R `{!Reflexive R} {B} P b (k : M B) :
  (b = true → keeps R P k) →
  keeps R P (assert b ≫= λ _, k).
Proof.
  intros Hk w r w' Ha Hw. unfold mbind, M_bind, assert.
  destruct b.
  - by apply Hk.
  - intros [= <- <-]. reflexivity.
Qed.

Local Hint Resolve keeps_affine_fetch_add keeps_affine_fetch_sub
  keeps_affine_do_wake keeps_affine_dec_ref_local keeps_affine_wake_lambda
  keeps_affine_inc_ref keeps_affine_dec_ref keeps_affine_wake
  keeps_affine_wake_by_ref keeps_affine_do_waker_call
  keeps_affine_do_waker_calls keeps_affine_invoke_poll
  keeps_affine_run_and_dispose keeps_affine_new_rust_task
  keeps_affine_set_sched_state keeps_affine_schedule
  keeps_affine_delete_task keeps_affine_log_poll : affine.

(** Whatever relation the basic operations of thread [th] keep, the
    waker functions called on [th] and the closures run on [th] keep. *)
Section KeptByThread.

Variable R : world → world → Prop.
Variable th : thread.
Context `{!PreOrder R}.

Hypothesis R_fetch_add : ∀ this n, keeps R (λ _, True) (fetch_add this n).
Hypothesis R_fetch_sub : ∀ this n, keeps R (λ _, True) (fetch_sub this n).
Hypothesis R_post : ∀ m, keeps R (λ _, True) (post m).
Hypothesis R_log_poll :
  ∀ this fut, keeps R (λ _, True) (log_poll th this fut).
Hypothesis R_do_wake :
  ∀ this, keeps R (λ w, owned_by w th this) (do_wake th this).
Hypothesis R_delete_task :
  ∀ this, keeps R (λ w, owned_by w th this) (delete_task th this).

Lemma keeps_anywhere {A} P (m : M A) : keeps R (λ _, True) m → keeps R P m.
Proof. by apply keeps_weaken. Qed.

Lemma keeps_dec_ref_local this :
  keeps R (λ w, owned_by w th this) (dec_ref_local th this).
Proof.
  unfold dec_ref_local. apply keeps_bind; auto with affine.
  - apply keeps_anywhere, R_fetch_sub.
  - intros old. case_bool_decide; [apply R_delete_task|].
    apply keeps_ret; apply _.
Qed.

Lemma keeps_wake_lambda this :
  keeps R (λ w, owned_by w th this) (wake_lambda th this).
Proof.
  unfold wake_lambda. apply keeps_bind; auto with affine.
  intros _. apply keeps_dec_ref_local.
Qed.

Lemma keeps_call_on_origin_thread P this f :
  keeps R P (call_on_origin_thread th this f).
Proof.
  apply keeps_anywhere. unfold call_on_origin_thread.
  apply keeps_deref_bind; [apply _|]. intros t. apply keeps_anywhere.
  case_bool_decide; apply R_post.
Qed.

Lemma keeps_inc_ref P this : keeps R P (inc_ref this).
Proof.
  apply keeps_anywhere. unfold inc_ref.
  apply keeps_bind; auto with affine.
  intros _. apply keeps_ret; apply _.
Qed.

Lemma keeps_dec_ref P this : keeps R P (dec_ref th this).
Proof.
  apply keeps_anywhere. unfold dec_ref.
  apply keeps_bind; auto with affine.
  intros old. case_bool_decide.
  - apply keeps_call_on_origin_thread.
  - apply keeps_ret; apply _.
Qed.

Lemma keeps_wake P this : keeps R P (wake th this).
Proof. apply keeps_call_on_origin_thread. Qed.

Lemma keeps_wake_by_ref P this : keeps R P (wake_by_ref th this).
Proof.
  apply keeps_anywhere. unfold wake_by_ref.
  apply keeps_deref_bind; [apply _|]. intros t.
  destruct (is_on_right_thread th t) eqn:Hth.
  - apply is_on_right_thread_origin in Hth.
    eapply keeps_weaken; [|apply R_do_wake].
    intros w Ha [_ H]. by eapply owned_by_live.
  - apply keeps_anywhere. apply keeps_bind; auto with affine.
    + apply keeps_inc_ref.
    + intros _. apply keeps_wake.
Qed.

Lemma keeps_do_waker_call P c : keeps R P (do_waker_call th c).
Proof.
  destruct c; cbn.
  - apply keeps_inc_ref.
  - apply keeps_wake.
  - apply keeps_wake_by_ref.
  - apply keeps_dec_ref.
Qed.

Lemma keeps_do_waker_calls P cs : keeps R P (do_waker_calls th cs).
Proof.
  apply keeps_anywhere.
  induction cs as [|c cs IH]; cbn [do_waker_calls].
  - apply keeps_ret; apply _.
  - apply keeps_bind; auto with affine. apply keeps_do_waker_call.
Qed.

Lemma keeps_invoke_poll rust P pf this fut :
  keeps R P (invoke_poll rust th pf this fut).
Proof.
  apply keeps_anywhere. intros w r w' Ha HT. unfold invoke_poll.
  destruct (rust pf this fut w) as [cs r0].
  assert (Hk : keeps R (λ _, True)
                 (log_poll th this fut;; do_waker_calls th cs;; mret r0)).
  { apply keeps_bind; auto with affine.
    intros _. apply keeps_bind; auto with affine.
    - apply keeps_do_waker_calls.
    - intros _. apply keeps_ret; apply _. }
  by apply Hk.
Qed.

End KeptByThread.

Ltac keeps_bind_tac :=
  apply keeps_bind; [try apply _ ..]; auto with affine.

(** ** Scheduling state is touched on the owning worker only *)

Global Instance untouched_elsewhere_preorder th :
  PreOrder (untouched_elsewhere th).
Proof.
  split.
  - intros w p t H _. by exists t.
  - intros w1 w2 w3 H12 H23 p t H Ho.
    destruct (H12 p t H Ho) as (t2 & H2 & Hs2 & Ho2).
    destruct (H23 p t2 H2) as (t3 & H3 & Hs3 & Ho3); [congruence|].
    exists t3. split; [done|]. split; congruence.
Qed.

Lemma untouched_same_heap th w w' :
  heap w' = heap w → untouched_elsewhere th w w'.
Proof. intros Hh p t H _. exists t. by rewrite Hh. Qed.

Lemma untouched_update th this f :
  (∀ t, origin (f t) = origin t ∧ _sched_state (f t) = _sched_state t) →
  keeps (untouched_elsewhere th) (λ _, True) (update this f).
Proof.
  intros Hf w r w' _ _. unfold update.
  destruct (heap w !! this) as [t0|] eqn:H0; intros [= _ <-];
    [|reflexivity].
  intros p t H Ho. cbn. destruct (decide (p = this)) as [->|Hne].
  - exists (f t0). rewrite lookup_insert_eq.
    assert (t0 = t) as -> by congruence. split; [done|].
    by destruct (Hf t).
  - exists t. by rewrite lookup_insert_ne.
Qed.

Lemma untouched_update_own th this f :
  keeps (untouched_elsewhere th) (λ w, owned_by w th this) (update this f).
Proof.
  intros w r w' _ [_ Hown]. unfold update.
  destruct (heap w !! this) as [t0|] eqn:H0; intros [= _ <-];
    [|reflexivity].
  intros p t H Ho. cbn. destruct (decide (p = this)) as [->|Hne].
  - destruct Ho. symmetry. apply Hown. congruence.
  - exists t. by rewrite lookup_insert_ne.
Qed.

Lemma untouched_fetch_add th this n :
  keeps (untouched_elsewhere th) (λ _, True) (fetch_add this n).
Proof.
  unfold fetch_add. apply keeps_deref_bind; [apply _|]. intros t.
  apply (keeps_weaken _ _ (λ _, True)); [done|].
  keeps_bind_tac.
  - apply keeps_affine_anywhere. by apply keeps_affine_update.
  - by apply untouched_update.
  - intros _. apply keeps_ret; apply _.
Qed.

Lemma untouched_fetch_sub th this n :
  keeps (untouched_elsewhere th) (λ _, True) (fetch_sub this n).
Proof.
  unfold fetch_sub. apply keeps_deref_bind; [apply _|]. intros t.
  apply (keeps_weaken _ _ (λ _, True)); [done|].
  keeps_bind_tac.
  - apply keeps_affine_anywhere. by apply keeps_affine_update.
  - by apply untouched_update.
  - intros _. apply keeps_ret; apply _.
Qed.

Lemma untouched_post th m :
  keeps (untouched_elsewhere th) (λ _, True) (post m).
Proof. intros w r w' _ _ [= _ <-]. by apply untouched_same_heap. Qed.

Lemma untouched_log_poll th this fut :
  keeps (untouched_elsewhere th) (λ _, True) (log_poll th this fut).
Proof. intros w r w' _ _ [= _ <-]. by apply untouched_same_heap. Qed.

Lemma untouched_schedule th this :
  keeps (untouched_elsewhere th) (λ w, owned_by w th this) (schedule th this).
Proof. intros w r w' _ _ [= _ <-]. by apply untouched_same_heap. Qed.

Lemma untouched_do_wake th this :
  keeps (untouched_elsewhere th) (λ w, owned_by w th this) (do_wake th this).
Proof.
  unfold do_wake. apply keeps_deref_bind; [apply _|]. intros t.
  apply (keeps_weaken _ _ (λ w, owned_by w th this)); [tauto|].
  apply keeps_assert_bind; [apply _|]. intros _.
  destruct (_sched_state t);
    try (apply keeps_ret; apply _); try apply untouched_update_own.
  keeps_bind_tac.
  - apply untouched_schedule.
  - intros _. apply untouched_update_own.
Qed.

Lemma untouched_delete_task th this :
  keeps (untouched_elsewhere th) (λ w, owned_by w th this)
        (delete_task th this).
Proof.
  intros w r w' _ [_ Hown]. unfold delete_task.
  destruct (heap w !! this) as [t0|] eqn:H0; intros [= _ <-];
    [|reflexivity].
  intros p t H Ho. cbn. destruct (decide (p = this)) as [->|Hne].
  - destruct Ho. symmetry. apply Hown. congruence.
  - exists t. by rewrite lookup_delete_ne.
Qed.

Lemma untouched_new_rust_task th pf fut :
  keeps (untouched_elsewhere th) (λ _, True) (new_rust_task th pf fut).
Proof.
  intros w r w' Ha _.
  unfold new_rust_task, mbind, M_bind, mret, M_ret, assert. cbn.
  set (w1 := {| heap := _ |}).
  assert (untouched_elsewhere th w w1).
  { intros p t H Ho. exists t. cbn. rewrite lookup_insert_ne; [done|].
    apply (affine_heap _ Ha) in H. lia. }
  by case_bool_decide; intros [= _ <-].
Qed.

Lemma untouched_run_and_dispose rust th this :
  keeps (untouched_elsewhere th) (λ _, True) (run_and_dispose rust th this).
Proof.
  unfold run_and_dispose.
  apply keeps_deref_bind; [apply _|]. intros t.
  apply keeps_assert_bind; [apply _|]. intros Hth.
  apply is_on_right_thread_origin in Hth.
  apply (keeps_weaken _ _ (λ w, owned_by w th this)).
  { intros w Ha [_ H]. by eapply owned_by_live. }
  apply keeps_assert_bind; [apply _|]. intros _.
  keeps_bind_tac.
  { apply untouched_update_own. }
  intros _. keeps_bind_tac.
  { apply keeps_invoke_poll; auto using untouched_fetch_add,
      untouched_fetch_sub, untouched_post, untouched_log_poll,
      untouched_do_wake, untouched_delete_task; apply _. }
  intros r. cbn zeta. keeps_bind_tac.
  { case_bool_decide; auto with affine.
    apply keeps_affine_bind; auto with affine. }
  { case_bool_decide; [|apply keeps_ret; apply _].
    keeps_bind_tac.
    - apply untouched_update_own.
    - intros _. apply keeps_dec_ref_local;
        auto using untouched_fetch_sub, untouched_delete_task; apply _. }
  intros _. apply keeps_deref_bind; [apply _|]. intros t'.
  apply (keeps_weaken _ _ (λ w, owned_by w th this)); [tauto|].
  case_bool_decide.
  - keeps_bind_tac.
    + apply untouched_schedule.
    + intros _. apply untouched_update_own.
  - apply untouched_update_own.
Qed.

Lemma untouched_run_callable rust th f :
  keeps (untouched_elsewhere th) (λ w, callable_ok w th f)
        (run_callable rust th f).
Proof.
  destruct f as [this|this|pf fut]; cbn.
  - apply untouched_delete_task.
  - apply keeps_wake_lambda;
      auto using untouched_fetch_sub, untouched_do_wake,
        untouched_delete_task; apply _.
  - keeps_bind_tac.
    + apply untouched_new_rust_task.
    + intros this. apply untouched_run_and_dispose.
Qed.

Lemma steps_affine rust acts r w :
  steps rust acts no_tasks = (r, w) → affine w.
Proof.
  intros H.
  by destruct (keeps_affine_steps rust acts no_tasks r w affine_no_tasks I H).
Qed.

(** X9: a step executed on thread [th] (an exported call made there, a
    submitted closure delivered there, or a scheduler run there) leaves
    every task owned by another thread in place and in the scheduling
    state it was in; this holds in every world the system can reach and
    however the step ends.  So a task's scheduling state is written, and
    the task destroyed, on its owning worker only. *)
Theorem sched_state_written_on_owner_only rust acts a th w :
  steps rust acts no_tasks = (Done (), w) →
  actor a w = Some th →
  untouched_elsewhere th w (snd (step rust a w)).
Proof.
  intros Hreach Hact. pose proof (steps_affine _ _ _ _ Hreach) as Ha.
  destruct (step rust a w) as [r w'] eqn:Hstep. cbn [snd].
  destruct a as [th0 c|th0 pf fut|th0 pf fut shard|i|i];
    cbn in Hact, Hstep.
  - injection Hact as ->.
    eapply (keeps_do_waker_call (untouched_elsewhere th) th); eauto;
      auto using untouched_fetch_add, untouched_fetch_sub, untouched_post,
        untouched_do_wake.
  - injection Hact as ->. revert Hstep.
    apply (keeps_bind (untouched_elsewhere th) (λ _, True)); [try apply _ ..]; auto with affine.
    + apply untouched_new_rust_task.
    + intros this. apply untouched_run_and_dispose.
  - injection Hact as ->. revert Hstep. by apply untouched_post.
  - destruct (mailbox w !! i) as [m|] eqn:Hm; [|done].
    injection Hact as <-. revert Hstep.
    unfold mbind, M_bind, take_message. rewrite Hm.
    set (w1 := {| heap := heap w |}). intros Hrun.
    assert (Hl : later_than w w1) by by apply later_than_same_heap.
    assert (Ha1 : affine w1).
    { destruct Ha as [Hh Hmb Hq Hg]. split; try done.
      cbn. by apply Forall_delete. }
    assert (Hok : callable_ok w1 (target m) (work m)).
    { apply (callable_ok_later w); [|done].
      by apply (Forall_lookup_1 _ _ _ _ (affine_mailbox _ Ha) Hm). }
    etrans; [apply (untouched_same_heap _ w w1); done|].
    by eapply untouched_run_callable.
  - destruct (run_queue w !! i) as [[th1 this]|] eqn:Hq; [|done].
    injection Hact as <-. revert Hstep.
    unfold mbind, M_bind, take_queued. rewrite Hq.
    set (w1 := {| heap := heap w |}). intros Hrun.
    assert (Ha1 : affine w1).
    { destruct Ha as [Hh Hmb Hqq Hg]. split; try done.
      cbn. by apply Forall_delete. }
    etrans; [apply (untouched_same_heap _ w w1); done|].
    by eapply untouched_run_and_dispose.
Qed.

(** ** At most once in the run queue *)

Lemma entries_app p q th x :
  entries p (q ++ [(th, x)]) =
    (entries p q + (if decide (x = p) then 1 else 0))%nat.
Proof.
  unfold entries. rewrite filter_app, length_app. f_equal.
  rewrite filter_cons, filter_nil. cbn. by destruct (decide (x = p)).
Qed.

Lemma entries_delete p q i e :
  q !! i = Some e →
  entries p q =
    (entries p (base.delete i q) + (if decide (e.2 = p) then 1 else 0))%nat.
Proof.
  revert i. induction q as [|y q IH]; intros [|i] H; try done.
  - injection H as ->. change (base.delete 0%nat (e :: q)) with q.
    unfold entries. rewrite filter_cons.
    destruct (decide (e.2 = p)); cbn [length]; lia.
  - cbn in H. specialize (IH i H).
    change (base.delete (S i) (y :: q)) with (y :: base.delete i q).
    unfold entries in *. rewrite !filter_cons.
    destruct (decide (y.2 = p)); cbn [length]; lia.
Qed.

Global Instance stays_consistent_preorder running :
  PreOrder (stays_consistent running).
Proof. split; unfold stays_consistent; [by intros w|intros w1 w2 w3; tauto]. Qed.

(** Changing anything but the scheduling state of a task, and no queue. *)
Lemma queue_consistent_same running w w' :
  run_queue w' = run_queue w →
  (∀ p t', heap w' !! p = Some t' →
           ∃ t, heap w !! p = Some t ∧ _sched_state t = _sched_state t') →
  queue_consistent running w → queue_consistent running w'.
Proof.
  intros Hq Hh [[H1 H2] H3]. split; [split|].
  - intros p. rewrite Hq. apply H1.
  - intros p t' H' Hx. destruct (Hh p t' H') as (t & H & <-).
    rewrite Hq. by apply H2.
  - destruct running as [this|]; [|done]. destruct H3 as [H0 Hs].
    split; [by rewrite Hq|].
    intros t' H'. destruct (Hh this t' H') as (t & H & <-). by apply Hs.
Qed.

Lemma consistent_update_ref_count running this c :
  keeps (stays_consistent running) (λ _, True)
        (update this (set_ref_count c)).
Proof.
  intros w r w' _ _. unfold update.
  destruct (heap w !! this) as [t0|] eqn:H0; intros [= _ <-];
    [|reflexivity].
  unfold stays_consistent. apply queue_consistent_same; [done|].
  intros p t'. cbn. rewrite lookup_insert_Some.
  intros [[<- <-]|[_ H]]; eauto.
Qed.

Lemma consistent_fetch_add running this n :
  keeps (stays_consistent running) (λ _, True) (fetch_add this n).
Proof.
  unfold fetch_add. apply keeps_deref_bind; [apply _|]. intros t.
  apply (keeps_weaken _ _ (λ _, True)); [done|].
  keeps_bind_tac.
  - apply keeps_affine_anywhere. by apply keeps_affine_update.
  - apply consistent_update_ref_count.
  - intros _. apply keeps_ret; apply _.
Qed.

Lemma consistent_fetch_sub running this n :
  keeps (stays_consistent running) (λ _, True) (fetch_sub this n).
Proof.
  unfold fetch_sub. apply keeps_deref_bind; [apply _|]. intros t.
  apply (keeps_weaken _ _ (λ _, True)); [done|].
  keeps_bind_tac.
  - apply keeps_affine_anywhere. by apply keeps_affine_update.
  - apply consistent_update_ref_count.
  - intros _. apply keeps_ret; apply _.
Qed.

Lemma consistent_post running m :
  keeps (stays_consistent running) (λ _, True) (post m).
Proof.
  intros w r w' _ _ [= _ <-]. unfold stays_consistent.
  apply queue_consistent_same; [done|]. eauto.
Qed.

Lemma consistent_log_poll running th this fut :
  keeps (stays_consistent running) (λ _, True) (log_poll th this fut).
Proof.
  intros w r w' _ _ [= _ <-]. unfold stays_consistent.
  apply queue_consistent_same; [done|]. eauto.
Qed.

Lemma consistent_delete_task running th this P :
  keeps (stays_consistent running) P (delete_task th this).
Proof.
  intros w r w' _ _. unfold delete_task.
  destruct (heap w !! this) as [t0|] eqn:H0; intros [= _ <-];
    [|reflexivity].
  unfold stays_consistent. apply queue_consistent_same; [done|].
  intros p t'. cbn. rewrite lookup_delete_Some. intros [_ H]. eauto.
Qed.

Lemma consistent_do_wake running th this P :
  keeps (stays_consistent running) P (do_wake th this).
Proof.
  intros w r w' _ _ Hrun HQ.
  destruct (heap w !! this) as [t|] eqn:H; cycle 1.
  { revert Hrun. unfold do_wake, mbind, M_bind, deref. rewrite H.
    by intros [= _ <-]. }
  destruct (decide (_origin_shard t = this_shard_id th)) as [Hsh|Hsh];
    cycle 1.
  { revert Hrun. unfold do_wake, mbind, M_bind, deref, assert. rewrite H.
    rewrite bool_decide_false by done. by intros [= _ <-]. }
  rewrite (do_wake_live th this t w H Hsh) in Hrun.
  destruct HQ as [[H1 H2] H3].
  destruct (_sched_state t) eqn:Hst; injection Hrun as _ <-;
    try (by split).
  - (* idle: schedule, then scheduled *)
    assert (Hnr : running ≠ Some this).
    { intros ->. destruct H3 as [_ Hs].
      destruct (Hs t H) as [Hx|Hx]; congruence. }
    pose proof (H2 this t H Hnr) as H0. rewrite Hst in H0. cbn in H0.
    split; [split|].
    + intros p. cbn [run_queue with_heap enqueued]. rewrite entries_app.
      destruct (decide (this = p)) as [<-|]; [lia|].
      specialize (H1 p). lia.
    + intros p t'. cbn [run_queue heap with_heap enqueued].
      rewrite entries_app, lookup_insert_Some.
      intros [[<- <-]|[Hne H']] Hx.
      * rewrite decide_True by done. cbn. lia.
      * rewrite decide_False by done. rewrite Nat.add_0_r. by apply H2.
    + destruct running as [x|]; [|done]. destruct H3 as [Hx0 Hxs].
      assert (x ≠ this) by congruence.
      split.
      * cbn [run_queue with_heap enqueued].
        rewrite entries_app, decide_False by done. lia.
      * intros t'. cbn [heap with_heap enqueued].
        rewrite lookup_insert_ne by done. apply Hxs.
  - (* executing: remember the wake *)
    split; [split|].
    + done.
    + intros p t'. cbn [run_queue heap with_heap].
      rewrite lookup_insert_Some.
      intros [[<- <-]|[Hne H']] Hx; [|by apply H2].
      specialize (H2 this t H Hx). rewrite Hst in H2. done.
    + destruct running as [x|]; [|done]. destruct H3 as [Hx0 Hxs].
      split; [done|]. intros t'. cbn [heap with_heap].
      rewrite lookup_insert_Some.
      intros [[<- <-]|[Hne H']]; [by right|by apply Hxs].
Qed.

Section ConsistentOnThread.

Variable running : option ptr.
Variable th : thread.

Lemma consistent_do_waker_calls P cs :
  keeps (stays_consistent running) P (do_waker_calls th cs).
Proof.
  apply keeps_do_waker_calls;
    auto using consistent_fetch_add, consistent_fetch_sub, consistent_post,
      consistent_do_wake; apply _.
Qed.

Lemma consistent_do_waker_call P c :
  keeps (stays_consistent running) P (do_waker_call th c).
Proof.
  apply keeps_do_waker_call;
    auto using consistent_fetch_add, consistent_fetch_sub, consistent_post,
      consistent_do_wake; apply _.
Qed.

Lemma consistent_wake_lambda this :
  keeps (stays_consistent running) (λ w, owned_by w th this)
        (wake_lambda th this).
Proof.
  apply keeps_wake_lambda;
    auto using consistent_fetch_sub, consistent_do_wake,
      consistent_delete_task; apply _.
Qed.

Lemma consistent_invoke_poll rust P pf this fut :
  keeps (stays_consistent running) P (invoke_poll rust th pf this fut).
Proof.
  apply keeps_invoke_poll;
    auto using consistent_fetch_add, consistent_fetch_sub, consistent_post,
      consistent_log_poll, consistent_do_wake; apply _.
Qed.

End ConsistentOnThread.

Lemma rests_with_not_done s n : rests_with s n → s ≠ done.
Proof. by destruct s. Qed.

Lemma except_safe this w :
  consistent_except (Some this) w →
  (∀ t, heap w !! this = Some t → _sched_state t ≠ done) →
  at_most_once_queued w ∧ nobody_done w.
Proof.
  intros [H1 H2] Hthis. split; [done|]. intros p t H.
  destruct (decide (p = this)) as [->|Hne]; [by apply Hthis|].
  eapply rests_with_not_done, H2; [done|congruence].
Qed.

Lemma polled_safe this w :
  queue_consistent (Some this) w → at_most_once_queued w ∧ nobody_done w.
Proof.
  intros [He [_ Hs]]. apply (except_safe this); [done|].
  intros t H. destruct (Hs t H) as [-> | ->]; done.
Qed.

Lemma resting_safe w :
  queue_consistent None w → at_most_once_queued w ∧ nobody_done w.
Proof.
  intros [[H1 H2] _]. split; [done|]. intros p t H.
  eapply rests_with_not_done, H2; done.
Qed.

(** Writing only the task at [this], and no queue. *)
Lemma except_update this w w' :
  run_queue w' = run_queue w →
  (∀ p, p ≠ this → heap w' !! p = heap w !! p) →
  consistent_except (Some this) w → consistent_except (Some this) w'.
Proof.
  intros Hq Hh [H1 H2]. split.
  - intros p. rewrite Hq. apply H1.
  - intros p t H' Hx. assert (p ≠ this) by congruence.
    rewrite Hq. apply H2; [|done]. by rewrite <- Hh.
Qed.

(** The two ways a run hands its task back to the scheduler. *)
Lemma settle_idle this w w' :
  consistent_except (Some this) w →
  entries this (run_queue w) = 0%nat →
  run_queue w' = run_queue w →
  (∀ p, p ≠ this → heap w' !! p = heap w !! p) →
  (∀ t, heap w' !! this = Some t → _sched_state t = idle) →
  queue_consistent None w'.
Proof.
  intros [H1 H2] H0 Hq Hh Hthis. split; [split|done].
  - intros p. rewrite Hq. apply H1.
  - intros p t H' _. rewrite Hq.
    destruct (decide (p = this)) as [->|Hne].
    + rewrite (Hthis t H'), H0. done.
    + apply H2; [|congruence]. by rewrite <- Hh.
Qed.

Lemma settle_requeued th this w w' :
  consistent_except (Some this) w →
  entries this (run_queue w) = 0%nat →
  run_queue w' = run_queue w ++ [(th, this)] →
  (∀ p, p ≠ this → heap w' !! p = heap w !! p) →
  (∀ t, heap w' !! this = Some t → _sched_state t = executing) →
  queue_consistent None w'.
Proof.
  intros [H1 H2] H0 Hq Hh Hthis. split; [split|done].
  - intros p. rewrite Hq, entries_app.
    destruct (decide (this = p)) as [<-|]; [lia|]. specialize (H1 p). lia.
  - intros p t H' _. rewrite Hq, entries_app.
    destruct (decide (p = this)) as [->|Hne].
    + rewrite (Hthis t H'), H0, decide_True by done. done.
    + rewrite decide_False, Nat.add_0_r by done.
      apply H2; [|congruence]. by rewrite <- Hh.
Qed.

(** One run of a task that has been taken out of the run queue (or was
    never in it). *)
Lemma consistent_run_and_dispose rust th this w r w' :
  affine w →
  consistent_except (Some this) w →
  entries this (run_queue w) = 0%nat →
  (∀ t, heap w !! this = Some t → _sched_state t ≠ done) →
  run_and_dispose rust th this w = (r, w') →
  (r = Done () → queue_consistent None w') ∧
  at_most_once_queued w' ∧ nobody_done w'.
Proof.
  intros Ha He H0 Hnd Hrun.
  assert (Hstop : ∀ f, (r, w') = (Fault f, w) →
            (r = Done () → queue_consistent None w') ∧
            at_most_once_queued w' ∧ nobody_done w').
  { intros f [= -> ->]. split; [done|]. by apply (except_safe this). }
  destruct (heap w !! this) as [t|] eqn:H; cycle 1.
  { revert Hrun. unfold run_and_dispose, mbind, M_bind, deref. rewrite H.
    intros [= <- <-]. by eapply Hstop. }
  destruct (is_on_right_thread th t) eqn:Hth; cycle 1.
  { revert Hrun. unfold run_and_dispose, mbind, M_bind, deref, assert.
    rewrite H, Hth. intros [= <- <-]. by eapply Hstop. }
  apply is_on_right_thread_origin in Hth.
  rewrite (run_and_dispose_prologue rust th this t w H Hth (Hnd t eq_refl))
    in Hrun.
  set (w1 := with_sched_state executing this t w) in *.
  assert (H1 : heap w1 !! this = Some (set_sched_state executing t))
    by apply lookup_insert_eq.
  assert (Ha1 : affine w1).
  { by destruct (keeps_affine_set_sched_state (λ _, True) this executing
                   w (Done ()) w1 Ha I (update_live _ _ _ _ H)). }
  assert (HQ1 : queue_consistent (Some this) w1).
  { split; [|split; [done|]].
    - apply (except_update this w); [done| |done].
      intros p Hne. cbn. by rewrite lookup_insert_ne.
    - intros t1. rewrite H1. intros [= <-]. by left. }
  revert Hrun. unfold mbind at 1, M_bind at 1.
  destruct (invoke_poll _ _ _ _ _ w1) as [[r0|f] w2] eqn:Hpoll; cycle 1.
  { intros [= <- <-]. split; [done|]. apply (polled_safe this).
    by apply (consistent_invoke_poll (Some this) th rust (λ _, True)
                _ _ _ w1 (Fault f) w2 Ha1 I Hpoll). }
  assert (HQ2 : queue_consistent (Some this) w2).
  { by apply (consistent_invoke_poll (Some this) th rust (λ _, True)
                _ _ _ w1 (Done r0) w2 Ha1 I Hpoll). }
  destruct HQ2 as [He2 [H02 Hs2]].
  pose proof (polled_safe this w2 (conj He2 (conj H02 Hs2))) as Hsafe2.
  destruct (heap w2 !! this) as [t2|] eqn:H2; cycle 1.
  { unfold mbind, M_bind, update, deref, mret, M_ret.
    case_bool_decide; rewrite ?H2; intros [= <- <-]; by split. }
  case_bool_decide as Hfin.
  - (* the poll reported completion *)
    erewrite bind_Done; cycle 1.
    { rewrite (bind_Done _ _ _ _ _ (update_live _ _ _ _ H2)).
      by erewrite dec_ref_local_live by (cbn; apply lookup_insert_eq). }
    case_bool_decide as Hc.
    + (* the last reference: the task is gone *)
      unfold mbind, M_bind, deref. cbn. rewrite lookup_delete_eq.
      intros [= <- <-]. split; [done|].
      apply (except_safe this).
      * apply (except_update this w2); [done| |done].
        intros p Hne. cbn.
        by rewrite lookup_delete_ne, !lookup_insert_ne by done.
      * intros t'. cbn. by rewrite lookup_delete_eq.
    + erewrite bind_Done by (apply deref_live; cbn; apply lookup_insert_eq).
      cbn [_sched_state released set_ref_count set_sched_state].
      rewrite bool_decide_false by done.
      erewrite update_live by (cbn; apply lookup_insert_eq).
      intros [= <- <-].
      assert (queue_consistent None
                (with_heap
                   (<[this := set_sched_state idle
                                (released (set_sched_state done t2))]>
                      (heap
                         (with_heap
                            (<[this := released (set_sched_state done t2)]>
                               (heap (with_heap
                                        (<[this := set_sched_state done t2]>
                                           (heap w2)) w2)))
                            (with_heap (<[this := set_sched_state done t2]>
                                          (heap w2)) w2))))
                   (with_heap
                      (<[this := released (set_sched_state done t2)]>
                         (heap (with_heap
                                  (<[this := set_sched_state done t2]>
                                     (heap w2)) w2)))
                      (with_heap (<[this := set_sched_state done t2]>
                                    (heap w2)) w2)))) as HQ.
      { apply (settle_idle this w2); try done.
        - intros p Hne. cbn. by rewrite !lookup_insert_ne by done.
        - intros t'. cbn. rewrite lookup_insert_eq. by intros [= <-]. }
      split; [done|]. by apply resting_safe.
  - rewrite (bind_Done (mret ()) _ w2 () w2 eq_refl).
    rewrite (bind_Done _ _ _ _ _ (deref_live _ _ _ H2)).
    case_bool_decide as Hp.
    + unfold mbind, M_bind, schedule, update. cbn. rewrite H2.
      intros [= <- <-].
      assert (queue_consistent None
                (with_heap (<[this := set_sched_state executing t2]> (heap w2))
                           (enqueued th this w2))) as HQ.
      { apply (settle_requeued th this w2); try done.
        - intros p Hne. cbn. by rewrite lookup_insert_ne.
        - intros t'. cbn. rewrite lookup_insert_eq. by intros [= <-]. }
      split; [done|]. by apply resting_safe.
    + rewrite (update_live _ _ _ _ H2). intros [= <- <-].
      assert (queue_consistent None (with_sched_state idle this t2 w2))
        as HQ.
      { apply (settle_idle this w2); try done.
        - intros p Hne. cbn. by rewrite lookup_insert_ne.
        - intros t'. cbn. rewrite lookup_insert_eq. by intros [= <-]. }
      split; [done|]. by apply resting_safe.
Qed.

Lemma delete_none {A} (l : list A) i :
  l !! i = None → base.delete i l = l.
Proof.
  revert i. induction l as [|x l IH]; intros [|i] H; try done.
  cbn in H. change (base.delete (S i) (x :: l)) with (x :: base.delete i l).
  by rewrite IH.
Qed.

Lemma entries_fresh b q :
  Forall (λ e : thread * ptr, e.2 < b) q → entries b q = 0%nat.
Proof.
  induction 1 as [|e q He _ IH]; [done|].
  unfold entries in *. rewrite filter_cons.
  destruct (decide (e.2 = b)); [lia|done].
Qed.

(** A new task, constructed and run at once. *)
Lemma consistent_spawn rust th pf fut w r w' :
  affine w →
  queue_consistent None w →
  seastar_rs_spawn rust th pf fut w = (r, w') →
  (r = Done () → queue_consistent None w') ∧
  at_most_once_queued w' ∧ nobody_done w'.
Proof.
  intros Ha [[H1 H2] _]. unfold seastar_rs_spawn.
  unfold mbind at 1, M_bind at 1.
  destruct (new_rust_task th pf fut w) as [[this|f] w1] eqn:Hnew.
  - destruct (keeps_affine_new_rust_task (λ _, True) th pf fut w _ _ Ha I Hnew)
      as [Ha1 _].
    revert Hnew. unfold new_rust_task, mbind, M_bind, mret, M_ret, assert.
    case_bool_decide as He; [|done]. intros [= <- <-].
    assert (Hfresh : entries (brk w) (run_queue w) = 0%nat).
    { apply entries_fresh. eapply Forall_impl; [apply (affine_run_queue _ Ha)|].
      by intros e [? _]. }
    apply consistent_run_and_dispose; try done.
    + split; [done|]. intros p t. cbn [heap run_queue].
      rewrite lookup_insert_Some. intros [[<- _]|[_ H]] Hx; [done|].
      by apply H2.
    + intros t. cbn. rewrite lookup_insert_eq. by intros [= <-].
  - revert Hnew. unfold new_rust_task, mbind, M_bind, mret, M_ret, assert.
    case_bool_decide as He; [done|]. intros [= <- <-] [= <- <-].
    assert (Hfresh : entries (brk w) (run_queue w) = 0%nat).
    { apply entries_fresh. eapply Forall_impl; [apply (affine_run_queue _ Ha)|].
      by intros e [? _]. }
    split; [done|]. apply resting_safe. split; [split|done]; [done|].
    intros p t. cbn [heap run_queue].
    rewrite lookup_insert_Some. intros [[<- <-]|[_ H]] _.
    + by rewrite Hfresh.
    + by apply H2.
Qed.

Lemma consistent_step rust a w r w' :
  affine w →
  queue_consistent None w →
  step rust a w = (r, w') →
  (r = Done () → queue_consistent None w') ∧
  at_most_once_queued w' ∧ nobody_done w'.
Proof.
  intros Ha HQ.
  assert (Hkept : ∀ (m : M unit),
            keeps (stays_consistent None) (λ _, True) m →
            m w = (r, w') →
            (r = Done () → queue_consistent None w') ∧
            at_most_once_queued w' ∧ nobody_done w').
  { intros m Hm Hrun. pose proof (Hm w r w' Ha I Hrun HQ) as HQ'.
    split; [done|]. by apply resting_safe. }
  destruct a as [th c|th pf fut|th pf fut shard|i|i]; cbn [step].
  - apply Hkept, consistent_do_waker_call.
  - by apply consistent_spawn.
  - apply Hkept, consistent_post.
  - unfold mbind, M_bind, take_message.
    set (w1 := {| heap := heap w |}).
    assert (Hl : later_than w w1) by by apply later_than_same_heap.
    assert (Ha1 : affine w1).
    { destruct Ha as [Hh Hm Hq Hg]. split; try done.
      cbn. by apply Forall_delete. }
    assert (HQ1 : queue_consistent None w1)
      by (revert HQ; apply queue_consistent_same; eauto).
    destruct (mailbox w !! i) as [m|] eqn:Hm; cycle 1.
    { intros [= <- <-]. split; [done|]. by apply resting_safe. }
    assert (Hok : callable_ok w1 (target m) (work m)).
    { apply (callable_ok_later w); [|done].
      by apply (Forall_lookup_1 _ _ _ _ (affine_mailbox _ Ha) Hm). }
    destruct (work m) as [this|this|pf fut]; cbn [run_callable].
    + intros Hrun.
      pose proof (consistent_delete_task None (target m) this (λ _, True)
                    w1 r w' Ha1 I Hrun HQ1).
      split; [done|]. by apply resting_safe.
    + intros Hrun.
      pose proof (consistent_wake_lambda None (target m) this
                    w1 r w' Ha1 Hok Hrun HQ1).
      split; [done|]. by apply resting_safe.
    + by apply consistent_spawn.
  - unfold mbind, M_bind, take_queued.
    set (w1 := {| heap := heap w |}).
    assert (Ha1 : affine w1).
    { destruct Ha as [Hh Hm Hq Hg]. split; try done.
      cbn. by apply Forall_delete. }
    destruct (run_queue w !! i) as [[th this]|] eqn:Hq; cycle 1.
    { intros [= <- <-].
      assert (queue_consistent None w1).
      { revert HQ. apply queue_consistent_same; [|eauto]. cbn.
        by apply delete_none. }
      split; [done|]. by apply resting_safe. }
    destruct HQ as [[H1 H2] _].
    assert (Hent : ∀ p, entries p (run_queue w) =
              (entries p (run_queue w1)
               + (if decide (this = p) then 1 else 0))%nat).
    { intros p. by rewrite (entries_delete p _ _ _ Hq). }
    apply consistent_run_and_dispose; try done.
    + split.
      * intros p. specialize (H1 p). rewrite Hent in H1. lia.
      * intros p t H Hx. assert (this ≠ p) by congruence.
        specialize (H2 p t H). rewrite Hent, decide_False, Nat.add_0_r in H2
          by done. by apply H2.
    + specialize (H1 this). rewrite Hent, decide_True in H1 by done. lia.
    + intros t H. eapply rests_with_not_done, H2; done.
Qed.

Lemma consistent_steps rust acts : ∀ w r w',
  affine w →
  queue_consistent None w →
  steps rust acts w = (r, w') →
  (r = Done () → queue_consistent None w') ∧
  at_most_once_queued w' ∧ nobody_done w'.
Proof.
  induction acts as [|a acts IH]; intros w r w' Ha HQ; cbn [steps].
  - intros [= <- <-]. split; [done|]. by apply resting_safe.
  - unfold mbind, M_bind.
    destruct (step rust a w) as [[[]|f] w1] eqn:Hstep.
    + destruct (consistent_step rust a w _ _ Ha HQ Hstep) as [HQ1 _].
      destruct (keeps_affine_step rust a w _ _ Ha I Hstep) as [Ha1 _].
      apply IH; auto.
    + intros [= <- <-].
      destruct (consistent_step rust a w _ _ Ha HQ Hstep) as [_ Hsafe].
      by split.
Qed.

Lemma queue_consistent_no_tasks : queue_consistent None no_tasks.
Proof.
  split; [split|done].
  - intros p. unfold entries. cbn. lia.
  - intros p t H. cbn in H. by apply lookup_empty_Some in H.
Qed.

(** X10: however the system is driven (exported calls from any threads,
    deliveries and scheduler runs in any order, any foreign behaviour),
    no task is ever in the run queue twice; and as long as nothing has
    faulted, every live task is in the run queue exactly when its state
    says so: not at all when idle, once when scheduled or re-queued. *)
Theorem never_queued_twice rust acts :
  let w := snd (steps rust acts no_tasks) in
  (∀ p, (entries p (run_queue w) ≤ 1)%nat) ∧
  (fst (steps rust acts no_tasks) = Done () →
   ∀ p t, heap w !! p = Some t →
          entries p (run_queue w) =
            if decide (_sched_state t = idle) then 0%nat else 1%nat).
Proof.
  destruct (steps rust acts no_tasks) as [r w] eqn:Hsteps. cbn.
  destruct (consistent_steps rust acts no_tasks r w affine_no_tasks
              queue_consistent_no_tasks Hsteps) as (HQ & H1 & _).
  split; [done|]. intros -> p t H.
  destruct (HQ eq_refl) as [[_ H2] _].
  specialize (H2 p t H ltac:(done)).
  destruct (_sched_state t); cbn in H2; done.
Qed.

(** X11: the state done is never seen.  In every world the system can
    reach, with or without a fault, no live task has scheduling state
    done: a run that sets it either destroys the task or goes on to
    overwrite it. *)
Theorem done_never_observed rust acts p t :
  heap (snd (steps rust acts no_tasks)) !! p = Some t →
  _sched_state t ≠ done.
Proof.
  destruct (steps rust acts no_tasks) as [r w] eqn:Hsteps. cbn.
  destruct (consistent_steps rust acts no_tasks r w affine_no_tasks
              queue_consistent_no_tasks Hsteps) as (_ & _ & Hnd).
  apply Hnd.
Qed.

(** X12: no wake is lost between runs.  In any world the system has
    reached without a fault, [wake_by_ref] called on the owning worker of
    a live task succeeds and leaves that task in the run queue exactly
    once, whatever state it was in. *)
Theorem woken_task_is_queued rust acts w p t :
  steps rust acts no_tasks = (Done (), w) →
  heap w !! p = Some t →
  ∃ w',
    seastar_rs_waker_wake_by_ref (origin t) p w = (Done (), w') ∧
    entries p (run_queue w') = 1%nat.
Proof.
  intros Hsteps H.
  pose proof (steps_affine _ _ _ _ Hsteps) as Ha.
  destruct (consistent_steps rust acts no_tasks _ _ affine_no_tasks
              queue_consistent_no_tasks Hsteps) as (HQ & _ & _).
  specialize (HQ eq_refl).
  unfold seastar_rs_waker_wake_by_ref.
  rewrite (wake_by_ref_on_origin _ _ _ _ H eq_refl).
  destruct (do_wake (origin t) p w) as [r w'] eqn:Hw.
  pose proof (consistent_do_wake None (origin t) p (λ _, True)
                w r w' Ha I Hw HQ) as [[_ H2] _].
  rewrite (do_wake_live (origin t) p t w H eq_refl) in Hw.
  injection Hw as <- Hw'. exists w'. split; [done|].
  destruct HQ as [[_ H0] _]. specialize (H0 p t H ltac:(done)).
  destruct (_sched_state t) eqn:Hst; subst w'; cbn in H0; try done.
  all: match goal with
       | |- context [with_heap (<[?q := ?t1]> _)] =>
           specialize (H2 q t1); cbn in H2;
           rewrite lookup_insert_eq in H2; by apply H2
       end.
Qed.

(** ** The further theorems at concrete inputs *)

Lemma clone_then_dispose_restores_witness :
  (seastar_rs_waker_clone owner 100;; seastar_rs_waker_dispose outsider 100)
    (one_task 100 (sample_task 1 idle))
  = (Done (), one_task 100 (sample_task 1 idle)).
Proof.
  apply (clone_then_dispose_restores owner outsider 100 (sample_task 1 idle)
           (one_task 100 (sample_task 1 idle)) eq_refl).
  vm_compute. split; reflexivity.
Defined.

Lemma relayed_wake_by_ref_is_local_witness :
  (wake_by_ref outsider 100;; deliver_last poll_ready)
    (one_task 100 (sample_task 2 idle))
  = wake_by_ref owner 100 (one_task 100 (sample_task 2 idle)).
Proof.
  apply (relayed_wake_by_ref_is_local poll_ready outsider 100
           (sample_task 2 idle) (one_task 100 (sample_task 2 idle))
           eq_refl eq_refl).
  vm_compute. split; reflexivity.
Defined.

Lemma relayed_release_is_local_witness :
  (dec_ref sibling 100;; deliver_last poll_ready)
    (one_task 100 (sample_task 1 idle))
  = dec_ref_local owner 100 (one_task 100 (sample_task 1 idle)).
Proof.
  apply (proj2 (proj2 (relayed_release_is_local poll_ready sibling 100
                         (sample_task 1 idle)
                         (one_task 100 (sample_task 1 idle)) eq_refl))).
  reflexivity.
Defined.

Lemma wrap_unwrap_round_trip_witness :
  let '(a, s1) :=
    future_wrapper_base.construct 5 future_wrapper_base.empty_store in
  ∃ s2,
    future_wrapper_base.unwrap a s1
      = Done (5, future_wrapper_base.Wrapper 0, s2) ∧
    future_wrapper_base.cells s2
      = future_wrapper_base.cells future_wrapper_base.empty_store ∧
    future_wrapper_base.destroy (future_wrapper_base.Wrapper 0) s2 = Done s2 ∧
    future_wrapper_base.unwrap (future_wrapper_base.Wrapper 0) s2
      = Fault assertion_failed.
Proof.
  apply (wrap_unwrap_round_trip future_wrapper_base.empty_store 5).
  split; [reflexivity|]. intros p f Hp. vm_compute in Hp. discriminate Hp.
Defined.

Lemma move_transfers_ownership_witness :
  let a := future_wrapper_base.Wrapper 1 in
  let s := future_wrapper_base.Store {[1 := 5]} 2 in
  let '(b, a') := future_wrapper_base.move_construct a in
  let freed :=
    future_wrapper_base.Store (base.delete 1 {[1 := 5]}) 2 in
  future_wrapper_base.destroy a s = Done freed ∧
  future_wrapper_base.destroy a' s = Done s ∧
  future_wrapper_base.unwrap a' s = Fault assertion_failed ∧
  future_wrapper_base.unwrap b s
    = Done (5, future_wrapper_base.Wrapper 0, freed) ∧
  future_wrapper_base.destroy b s = Done freed ∧
  future_wrapper_base.destroy a' freed = Done freed.
Proof.
  exact (move_transfers_ownership (future_wrapper_base.Wrapper 1)
           (future_wrapper_base.Store {[1 := 5]} 2) 5
           ltac:(discriminate) eq_refl).
Defined.

Lemma sched_state_written_on_owner_only_witness :
  let w := snd (steps (poll_pending_waking 0) [act_spawn owner 7 9] no_tasks) in
  untouched_elsewhere sibling w
    (snd (step (poll_pending_waking 0)
            (act_waker sibling (call_waker_wake_by_ref 1)) w)).
Proof.
  apply (sched_state_written_on_owner_only (poll_pending_waking 0)
           [act_spawn owner 7 9]
           (act_waker sibling (call_waker_wake_by_ref 1)) sibling).
  - vm_compute. reflexivity.
  - reflexivity.
Defined.

Lemma done_never_observed_witness :
  _sched_state (RustTask 1 4096 0%N idle 7 9) ≠ done.
Proof.
  apply (done_never_observed poll_ready_keeping_waker [act_spawn owner 7 9] 1).
  vm_compute. reflexivity.
Defined.

Lemma woken_task_is_queued_witness :
  let w := snd (steps (poll_pending_waking 0) [act_spawn owner 7 9] no_tasks) in
  ∃ w',
    seastar_rs_waker_wake_by_ref owner 1 w = (Done (), w') ∧
    entries 1 (run_queue w') = 1%nat.
Proof.
  apply (woken_task_is_queued (poll_pending_waking 0) [act_spawn owner 7 9]
           _ 1 (RustTask 1 4096 0%N idle 7 9)).
  - vm_compute. reflexivity.
  - vm_compute. reflexivity.
Defined.

(** ** The dispatcher and the consuming wake, with same-shard submissions
       invoked at once *)

Lemma shortcut_call_on_origin_thread_live rust th this f t w :
  heap w !! this = Some t →
  shortcut.call_on_origin_thread rust th this f w =
    (if bool_decide (engine th ≠ _origin_engine t) then
       alien_run (_origin_engine t) (_origin_shard t) f
     else shortcut.submit_to rust th (_origin_shard t) f) w.
Proof.
  intros H. unfold shortcut.call_on_origin_thread.
  by rewrite (bind_Done _ _ _ _ _ (deref_live _ _ _ H)).
Qed.

(** On the owning worker the dispatcher is the closure itself. *)
Lemma shortcut_on_owner rust th this f t w :
  heap w !! this = Some t →
  th = origin t →
  shortcut.call_on_origin_thread rust th this f w = run_callable rust th f w.
Proof.
  intros H ->. rewrite (shortcut_call_on_origin_thread_live _ _ _ _ _ _ H).
  cbn. rewrite bool_decide_false by auto.
  unfold shortcut.submit_to. cbn. by rewrite bool_decide_true.
Qed.

(** Everywhere else it queues, as [call_on_origin_thread] does. *)
Lemma shortcut_off_owner rust th this f t w :
  heap w !! this = Some t →
  th ≠ origin t →
  shortcut.call_on_origin_thread rust th this f w
  = call_on_origin_thread th this f w.
Proof.
  intros H Hth. rewrite (shortcut_call_on_origin_thread_live _ _ _ _ _ _ H).
  rewrite (call_on_origin_thread_live _ _ _ _ _ H).
  case_bool_decide as He; [done|].
  unfold shortcut.submit_to. rewrite bool_decide_false; [done|].
  intros Hs. apply Hth. unfold origin. destruct th as [e s]; cbn in *.
  by rewrite He, Hs.
Qed.

Lemma shortcut_as_specified rust th this f w :
  shortcut.call_on_origin_thread rust th this f w
  = dispatch_as_specified rust th this f w.
Proof.
  unfold shortcut.call_on_origin_thread, dispatch_as_specified,
    shortcut.submit_to, is_on_right_thread.
  unfold mbind, M_bind. destruct (deref this w) as [[t|e] w']; [|done].
  repeat case_bool_decide; try done; cbn; congruence.
Qed.

(** The state [do_wake] leaves on the owning worker. *)
Lemma do_wake_woken th this t w :
  heap w !! this = Some t →
  th = origin t →
  ∃ w1,
    do_wake th this w = (Done (), w1) ∧
    heap w1 !! this = Some (set_sched_state (woken (_sched_state t)) t) ∧
    graveyard w1 = graveyard w ∧
    mailbox w1 = mailbox w.
Proof.
  intros H Hth.
  rewrite (do_wake_live th this t w H) by by subst th.
  destruct t as [c e s st pf fut]; cbn in *.
  destruct st; eexists; (split; [done|]); cbn;
    rewrite ?lookup_insert_eq; by repeat split.
Qed.

(** C7: a call is on the right thread exactly when both the engine and
    the shard index of the current thread equal the task's captured
    origin.  The dispatcher, with [smp::submit_to] invoking a same-shard
    closure at once, runs the callable there and then on the owning
    worker (the result is the callable's own, nothing is queued), queues
    it through [smp::submit_to] from another worker of the owning engine,
    and through [alien::run_on] from a thread of another or no engine: on
    every thread and every state it is the dispatcher the specification
    describes. *)
Theorem dispatcher_inline_or_submitted rust th this t f w :
  heap w !! this = Some t →
  (is_on_right_thread th t = true ↔
     engine th = _origin_engine t ∧ this_shard_id th = _origin_shard t) ∧
  (is_on_right_thread th t = true →
   shortcut.call_on_origin_thread rust th this f w
   = run_callable rust th f w) ∧
  (engine th = _origin_engine t →
   this_shard_id th ≠ _origin_shard t →
   shortcut.call_on_origin_thread rust th this f w
   = post (Message smp_submit_to (origin t) f) w) ∧
  (engine th ≠ _origin_engine t →
   shortcut.call_on_origin_thread rust th this f w
   = post (Message alien_run_on (origin t) f) w) ∧
  (∀ th' this' f' w',
     shortcut.call_on_origin_thread rust th' this' f' w'
     = dispatch_as_specified rust th' this' f' w').
Proof.
  intros H. split; [|split; [|split; [|split]]].
  - unfold is_on_right_thread.
    by rewrite andb_true_iff, !bool_decide_eq_true.
  - intros Hth. apply is_on_right_thread_origin in Hth.
    by apply (shortcut_on_owner _ _ _ _ t).
  - intros He Hs.
    rewrite (shortcut_call_on_origin_thread_live _ _ _ _ _ _ H).
    rewrite bool_decide_false by auto.
    unfold shortcut.submit_to. rewrite bool_decide_false by auto.
    unfold smp_submit, origin. by rewrite He.
  - intros He.
    rewrite (shortcut_call_on_origin_thread_live _ _ _ _ _ _ H).
    by rewrite bool_decide_true.
  - intros. apply shortcut_as_specified.
Qed.

(** The claim C10 makes of a wake on the owning worker fails: with
    [smp::submit_to] invoking a same-shard closure at once, the task is
    scheduled and the reference released when [wake] returns, and nothing
    is left for the reactor to process. *)
Lemma wake_on_owner_acts_at_once :
  let w := one_task 100 (sample_task 2 idle) in
  let woke := shortcut.wake poll_ready owner 100 w in
  fst woke = Done () ∧
  sched_state_of 100 (snd woke) = Some scheduled ∧
  ref_count_of 100 (snd woke) = Some 1 ∧
  run_queue (snd woke) = [(owner, 100)] ∧
  mailbox (snd woke) = [] ∧
  snd woke ≠ w.
Proof.
  do 5 (split; [by vm_compute|]).
  intros Heq. apply (f_equal run_queue) in Heq.
  vm_compute in Heq. discriminate Heq.
Qed.

(** C10 (amended): the consuming [wake] takes effect where and when its
    closure runs.  On the owning worker that is inside the call: [wake]
    is [do_wake] followed by [dec_ref_local], nothing is queued, and on
    return the task is woken and one reference is released (the task
    destroyed if that was the last); [wake_by_ref] there is [do_wake]
    alone.  On every other thread [wake] leaves the task, the run queue
    and the graveyard as they are and queues one closure for the owning
    worker; the reactor processing that closure has the effect a wake on
    the owning worker has. *)
Theorem wake_acts_where_its_closure_runs rust th this t w :
  heap w !! this = Some t →
  0 < _ref_count t < 2 ^ 64 →
  (is_on_right_thread th t = true →
   shortcut.wake rust th this w
   = (do_wake th this;; dec_ref_local th this) w ∧
   wake_by_ref th this w = do_wake th this w ∧
   ∃ w',
     shortcut.wake rust th this w = (Done (), w') ∧
     mailbox w' = mailbox w ∧
     if decide (_ref_count t = 1) then
       heap w' !! this = None ∧
       ∃ t', graveyard w' = graveyard w ++ [Burial th this t']
     else
       sched_state_of this w' = Some (woken (_sched_state t)) ∧
       ref_count_of this w' = Some (_ref_count t - 1) ∧
       graveyard w' = graveyard w) ∧
  (is_on_right_thread th t = false →
   ∃ w1,
     shortcut.wake rust th this w = (Done (), w1) ∧
     heap w1 = heap w ∧ run_queue w1 = run_queue w ∧
     graveyard w1 = graveyard w ∧
     mailbox w1 =
       mailbox w ++
         [Message (if bool_decide (engine th ≠ _origin_engine t)
                   then alien_run_on else smp_submit_to)
                  (origin t) (wake_and_release this)] ∧
     deliver_last rust w1 = shortcut.wake rust (origin t) this w).
Proof.
  intros H Hrc. split.
  - intros Hth. pose proof Hth as Ho. apply is_on_right_thread_origin in Ho.
    assert (Hw : shortcut.wake rust th this w
                 = (do_wake th this;; dec_ref_local th this) w).
    { unfold shortcut.wake.
      by rewrite (shortcut_on_owner _ _ _ _ t w H Ho). }
    split; [exact Hw|].
    split; [by apply (wake_by_ref_on_origin _ _ t)|].
    rewrite Hw.
    destruct (do_wake_woken th this t w H Ho) as (w1 & Hd & H1 & Hg1 & Hm1).
    rewrite (bind_Done _ _ _ _ _ Hd).
    rewrite (dec_ref_local_live _ _ _ _ H1).
    eexists. split; [done|].
    unfold sched_state_of, ref_count_of.
    cbn [_ref_count set_sched_state].
    destruct (decide (_ref_count t = 1)) as [Hc|Hc].
    + rewrite bool_decide_true by done. cbn.
      rewrite lookup_delete_eq. split; [done|]. split; [done|].
      eexists. by rewrite Hg1.
    + rewrite bool_decide_false by done. cbn.
      rewrite lookup_insert_eq. cbn.
      rewrite uint64_wrap_small by lia. by rewrite Hg1.
  - intros Hth.
    assert (Ho : th ≠ origin t).
    { intros Ho. apply is_on_right_thread_origin in Ho. congruence. }
    unfold shortcut.wake at 1.
    rewrite (shortcut_off_owner _ _ _ _ t w H Ho).
    destruct (call_on_origin_thread_posts th this (wake_and_release this)
                t w H) as (w1 & Hp & Hh & Hq & Hg & Hb & Hl & Hm).
    exists w1. split; [done|]. split; [done|]. split; [done|].
    split; [done|]. split; [done|].
    pose proof (call_then_deliver_last rust th this
                  (wake_and_release this) t w H) as Hdl.
    rewrite (bind_Done _ _ _ _ _ Hp) in Hdl. rewrite Hdl.
    unfold shortcut.wake.
    by rewrite (shortcut_on_owner _ _ _ _ t w H eq_refl).
Qed.

(** X13: the dispatcher with same-shard submissions invoked at once is
    the queueing dispatcher with the closure delivered straight away on
    the owning worker, and the queueing dispatcher itself on every other
    thread. *)
Theorem shortcut_is_immediate_delivery rust th this f t w :
  heap w !! this = Some t →
  shortcut.call_on_origin_thread rust th this f w
  = if is_on_right_thread th t then
      (call_on_origin_thread th this f;; deliver_last rust) w
    else call_on_origin_thread th this f w.
Proof.
  intros H. destruct (is_on_right_thread th t) eqn:Hth.
  - apply is_on_right_thread_origin in Hth.
    rewrite (call_then_deliver_last rust th this f t w H).
    rewrite <- Hth. by apply (shortcut_on_owner _ _ _ _ t).
  - apply (shortcut_off_owner _ _ _ _ t); [done|].
    intros Ho. apply is_on_right_thread_origin in Ho. congruence.
Qed.

Lemma dispatcher_inline_or_submitted_witness :
  let w := one_task 100 (sample_task 2 idle) in
  let f := wake_and_release 100 in
  is_on_right_thread owner (sample_task 2 idle) = true ∧
  shortcut.call_on_origin_thread poll_ready owner 100 f w
  = run_callable poll_ready owner f w ∧
  shortcut.call_on_origin_thread poll_ready sibling 100 f w
  = post (Message smp_submit_to owner f) w ∧
  shortcut.call_on_origin_thread poll_ready outsider 100 f w
  = post (Message alien_run_on owner f) w.
Proof.
  split; [reflexivity|]. split; [|split].
  - exact (proj1 (proj2 (dispatcher_inline_or_submitted poll_ready owner 100
                           (sample_task 2 idle) (wake_and_release 100)
                           (one_task 100 (sample_task 2 idle)) eq_refl))
             eq_refl).
  - exact (proj1 (proj2 (proj2
             (dispatcher_inline_or_submitted poll_ready sibling 100
                (sample_task 2 idle) (wake_and_release 100)
                (one_task 100 (sample_task 2 idle)) eq_refl)))
             eq_refl ltac:(discriminate)).
  - exact (proj1 (proj2 (proj2 (proj2
             (dispatcher_inline_or_submitted poll_ready outsider 100
                (sample_task 2 idle) (wake_and_release 100)
                (one_task 100 (sample_task 2 idle)) eq_refl))))
             ltac:(discriminate)).
Defined.

Lemma wake_acts_where_its_closure_runs_witness :
  let w := one_task 100 (sample_task 2 idle) in
  (∃ w',
     shortcut.wake poll_ready owner 100 w = (Done (), w') ∧
     mailbox w' = [] ∧
     sched_state_of 100 w' = Some scheduled ∧
     ref_count_of 100 w' = Some (2 - 1) ∧
     graveyard w' = []) ∧
  (∃ w1,
     shortcut.wake poll_ready sibling 100 w = (Done (), w1) ∧
     heap w1 = heap w ∧ run_queue w1 = [] ∧ graveyard w1 = [] ∧
     mailbox w1 = [Message smp_submit_to owner (wake_and_release 100)] ∧
     deliver_last poll_ready w1 = shortcut.wake poll_ready owner 100 w).
Proof.
  split.
  - exact (proj2 (proj2
             (proj1 (wake_acts_where_its_closure_runs poll_ready owner 100
                       (sample_task 2 idle)
                       (one_task 100 (sample_task 2 idle)) eq_refl
                       (conj eq_refl eq_refl))
                eq_refl))).
  - exact (proj2 (wake_acts_where_its_closure_runs poll_ready sibling 100
                    (sample_task 2 idle)
                    (one_task 100 (sample_task 2 idle)) eq_refl
                    (conj eq_refl eq_refl))
             eq_refl).
Defined.

Lemma shortcut_is_immediate_delivery_witness :
  shortcut.call_on_origin_thread poll_ready owner 100 (delete_this 100)
    (one_task 100 (sample_task 0 idle))
  = (call_on_origin_thread owner 100 (delete_this 100);;
     deliver_last poll_ready) (one_task 100 (sample_task 0 idle)).
Proof.
  apply (shortcut_is_immediate_delivery poll_ready owner 100
           (delete_this 100) (sample_task 0 idle)
           (one_task 100 (sample_task 0 idle)) eq_refl).
Defined.
